(** * tomoePredict: the .tdic converter (scripts/convert_data.py)

    A shallow embedding of [parse_tdic] and [normalize_strokes] and the
    properties of the format parser and of the stroke normaliser.

    Python strings are sequences of code points, so a [str] is a list of
    code points; [lines] is a Python list indexed by the cursor [i]; the
    only exception the parser can meet is [ValueError]; the true division
    of the normaliser is taken over the rationals. The built-in [int] is
    modelled on strings (white space, sign, digits and underscores); the
    table of the non-ASCII decimal digits and the limit on the number of
    digits belong to the interpreter and are parameters ([interp]). *)

From Stdlib Require Import String Ascii.
From Stdlib Require Import List Bool Arith ZArith NArith Lia.
From Stdlib Require Import QArith Qminmax Lqa.
Import ListNotations.
Close Scope Q_scope.

(* ================================================================== *)
(** ** Python strings *)

Module Str.

Local Open Scope N_scope.

(** A code point, and a string. *)
Abbreviation codepoint := N (only parsing).
Abbreviation str := (list N) (only parsing).

(** ASCII literals of the development: each byte is its own code point. *)
Definition u (s : string) : str := map N_of_ascii (list_ascii_of_string s).

Definition NL : codepoint := 0x0A.
Definition SP : codepoint := 0x20.
Definition LPAREN : codepoint := 0x28.
Definition RPAREN : codepoint := 0x29.
Definition COLON : codepoint := 0x3A.
Definition PLUS : codepoint := 0x2B.
Definition MINUS : codepoint := 0x2D.
Definition UNDERSCORE : codepoint := 0x5F.
(** The two glyphs tested at the top of the loop: U+65E7 and U+65B0. *)
Definition KYU : codepoint := 0x65E7.
Definition SHIN : codepoint := 0x65B0.

Definition between (lo hi c : codepoint) : bool := (lo <=? c) && (c <=? hi).

(** [str.isspace] of one code point: the white space that [strip()] and
    [split()] remove. *)
Definition isspace (c : codepoint) : bool :=
  between 0x09 0x0D c || between 0x1C 0x20 c || (c =? 0x85) || (c =? 0xA0)
  || (c =? 0x1680) || between 0x2000 0x200A c || (c =? 0x2028)
  || (c =? 0x2029) || (c =? 0x202F) || (c =? 0x205F) || (c =? 0x3000).

Fixpoint lstrip (s : str) : str :=
  match s with
  | [] => []
  | c :: r => if isspace c then lstrip r else s
  end.

Fixpoint rstrip (s : str) : str :=
  match s with
  | [] => []
  | c :: r =>
      match rstrip r with
      | [] => if isspace c then [] else [c]
      | r' => c :: r'
      end
  end.

(** [s.strip()] *)
Definition strip (s : str) : str := rstrip (lstrip s).

(** Truth value of a string or of a list: non-empty. *)
Definition truthy {A} (l : list A) : bool :=
  match l with [] => false | _ :: _ => true end.

(** [s.startswith(p)] *)
Fixpoint startswith (p s : str) : bool :=
  match p, s with
  | [], _ => true
  | a :: p', b :: s' => (a =? b) && startswith p' s'
  | _ :: _, [] => false
  end.

(** Pieces of [s] between the code points that satisfy [sep]; there is
    always at least one piece. *)
Fixpoint split_when (sep : codepoint -> bool) (s : str) : list str :=
  match s with
  | [] => [[]]
  | c :: r =>
      if sep c then [] :: split_when sep r
      else match split_when sep r with
           | p :: ps => (c :: p) :: ps
           | [] => [[c]]
           end
  end.

(** [s.split(c)] for a one-character separator. *)
Definition split (c : codepoint) (s : str) : list str := split_when (N.eqb c) s.

(** [s.split()]: the maximal runs without white space. *)
Definition split_ws (s : str) : list str :=
  filter (@truthy codepoint) (split_when isspace s).

(** [c in s] *)
Definition contains (c : codepoint) (s : str) : bool := existsb (N.eqb c) s.

(** [s.find(c)]: the first index of [c], or -1. *)
Fixpoint find (c : codepoint) (s : str) : Z :=
  match s with
  | [] => (-1)%Z
  | d :: r =>
      if d =? c then 0%Z
      else match find c r with
           | Zneg _ => (-1)%Z
           | k => (k + 1)%Z
           end
  end.

(** [s[k:]] *)
Definition slice_from (k : Z) (s : str) : str :=
  if (k <? 0)%Z
  then skipn (Z.to_nat (Z.max 0 (Z.of_nat (length s) + k))) s
  else skipn (Z.to_nat k) s.

(** [sep.join(ls)] for a one-character separator. *)
Fixpoint join (sep : codepoint) (ls : list str) : str :=
  match ls with
  | [] => []
  | [l] => l
  | l :: ls' => l ++ sep :: join sep ls'
  end.

End Str.

Import Str.

(* ================================================================== *)
(** ** Exceptions and the built-in [int] *)

Inductive exn := ValueError.

(** The outcome of a computation that may raise. *)
Definition result (A : Type) := (exn + A)%type.
Definition raise {A} (e : exn) : result A := inl e.
Definition ret {A} (a : A) : result A := inr a.

(** What [int(str)] takes from the interpreter: the decimal value of a
    non-ASCII code point in its Unicode tables ([None] when it is no decimal
    digit) and the limit on the number of digits of a literal (0: no
    limit). *)
Record interp := {
  unicode_decimal : codepoint -> option Z;
  int_max_str_digits : N
}.

(** The tables used for the worked examples: the full-width digits are the
    only non-ASCII decimals, the limit is the default one. *)
Definition default_interp : interp := {|
  unicode_decimal := fun c =>
    if between 0xFF10 0xFF19 c then Some (Z.of_N (c - 0xFF10)) else None;
  int_max_str_digits := 4300
|}%N.

Section Int.

Variable py : interp.

(** The value of one code point as a decimal digit. *)
Definition digit (c : codepoint) : option Z :=
  if (c <? 127)%N then
    if between 0x30%N 0x39%N c then Some (Z.of_N (c - 0x30)%N) else None
  else unicode_decimal py c.

(** White space that [int] ignores around a literal: ASCII strings keep
    their code points, so U+001C..U+001F are not skipped. *)
Definition int_space (c : codepoint) : bool :=
  between 0x09%N 0x0D%N c || (c =? SP)%N || ((127 <=? c)%N && isspace c).

Fixpoint int_lskip (s : str) : str :=
  match s with
  | [] => []
  | c :: r => if int_space c then int_lskip r else s
  end.

Fixpoint int_rskip (s : str) : str :=
  match s with
  | [] => []
  | c :: r =>
      match int_rskip r with
      | [] => if int_space c then [] else [c]
      | r' => c :: r'
      end
  end.

(** Digits with single underscores between them, after a first digit of
    value [acc]; [n] counts the digits read. *)
Fixpoint digits (acc : Z) (n : N) (s : str) : option (Z * N) :=
  match s with
  | [] => Some (acc, n)
  | c :: r =>
      if (c =? UNDERSCORE)%N then
        match r with
        | d :: r' =>
            match digit d with
            | Some v => digits (10 * acc + v)%Z (n + 1)%N r'
            | None => None
            end
        | [] => None
        end
      else
        match digit c with
        | Some v => digits (10 * acc + v)%Z (n + 1)%N r
        | None => None
        end
  end.

Definition too_many_digits (n : N) : bool :=
  ((640 <? n) && (0 <? int_max_str_digits py)
   && (int_max_str_digits py <? n))%N.

Definition unsigned (s : str) : result Z :=
  match s with
  | [] => raise ValueError
  | c :: r =>
      match digit c with
      | None => raise ValueError
      | Some v =>
          match digits v 1%N r with
          | None => raise ValueError
          | Some (z, n) => if too_many_digits n then raise ValueError else ret z
          end
      end
  end.

(** [int(s)] for a string [s]. *)
Definition int (s : str) : result Z :=
  match int_rskip (int_lskip s) with
  | [] => raise ValueError
  | c :: r =>
      if (c =? MINUS)%N then
        match unsigned r with inl e => inl e | inr z => ret (- z)%Z end
      else if (c =? PLUS)%N then unsigned r
      else unsigned (c :: r)
  end.

End Int.

(* ================================================================== *)
(** ** The format parser: [parse_tdic] *)

(** A character record [{'char': ..., 'strokes': ...}]; the points are
    integer pairs out of the parser and numbers after normalisation. *)
Record character (P : Type) := {
  char : str;
  strokes : list (list P)
}.
Arguments char {P} _.
Arguments strokes {P} _.
Arguments Build_character {P} _ _.

(** [range(n)] as a number of iterations. *)
Definition range (n : Z) : nat := Z.to_nat n.

(** How one iteration of the [while] loop ends: at the next iteration with
    the new cursor and list, at [break], or with an exception. *)
Inductive flow :=
| Next (i : nat) (characters : list (character (Z * Z)))
| Break (characters : list (character (Z * Z)))
| Raised (e : exn).

Section Parser.

Variable py : interp.

(** [x, y = map(int, coord_str.split())]: any other number of fields than
    two, and any field that is no integer, raises [ValueError]. *)
Definition parse_coord (coord_str : str) : result (Z * Z) :=
  match split_ws coord_str with
  | [a; b] =>
      match int py a with
      | inl e => raise e
      | inr x =>
          match int py b with
          | inl e => raise e
          | inr y => ret (x, y)
          end
      end
  | _ => raise ValueError
  end.

(** [for part in parts: ...], with the [try ... except ValueError]. *)
Fixpoint coords_loop (parts : list str) (coords : list (Z * Z))
  : list (Z * Z) :=
  match parts with
  | [] => coords
  | part :: parts' =>
      let part := strip part in
      if contains LPAREN part then
        let coord_str := slice_from (find LPAREN part + 1) part in
        match parse_coord coord_str with
        | inr xy => coords_loop parts' (coords ++ [xy])
        | inl ValueError => coords_loop parts' coords
        end
      else coords_loop parts' coords
  end.

(** The coordinates of one stroke line. *)
Definition parse_stroke_line (stroke_line : str) : list (Z * Z) :=
  coords_loop (split RPAREN stroke_line) [].

(** [for _ in range(stroke_count): ...] with [n] iterations left: the
    cursor and the strokes at the end of the loop. *)
Fixpoint stroke_loop (lines : list str) (n : nat) (i : nat)
    (strokes : list (list (Z * Z))) : nat * list (list (Z * Z)) :=
  match n with
  | O => (i, strokes)
  | S n' =>
      if length lines <=? i then (i, strokes)
      else
        let stroke_line := strip (nth i lines []) in
        if negb (truthy stroke_line) then stroke_loop lines n' i strokes
        else
          let coords := parse_stroke_line stroke_line in
          let strokes := if truthy coords then strokes ++ [coords]
                         else strokes in
          stroke_loop lines n' (i + 1) strokes
  end.

(** [while i < len(lines) and lines[i].strip(): i += 1], where [rest] is
    [lines[i:]]. *)
Fixpoint skip_lines (rest : list str) (i : nat) : nat :=
  match rest with
  | [] => i
  | l :: rest' => if truthy (strip l) then skip_lines rest' (i + 1) else i
  end.

(** The body of the [while] loop, entered with [i < len(lines)]. *)
Definition while_body (lines : list str) (i : nat)
    (characters : list (character (Z * Z))) : flow :=
  let line := strip (nth i lines []) in
  if negb (truthy line) then Next (i + 1) characters
  else if startswith [KYU] line || startswith [SHIN] line then
    let i := i + 1 in
    Next (skip_lines (skipn i lines) i) characters
  else if negb (startswith [COLON] line) then
    let char := line in
    let i := i + 1 in
    if length lines <=? i then Break characters
    else
      let stroke_line := strip (nth i lines []) in
      if negb (startswith [COLON] stroke_line) then Next i characters
      else
        match int py (slice_from 1 stroke_line) with
        | inl e => Raised e
        | inr stroke_count =>
            let i := i + 1 in
            let '(i, strokes) := stroke_loop lines (range stroke_count) i [] in
            if truthy strokes
            then Next i (characters ++ [{| char := char; strokes := strokes |}])
            else Next i characters
        end
  else Next (i + 1) characters.

(** [while i < len(lines): ...]; [None] when the fuel runs out. *)
Fixpoint while_loop (fuel : nat) (lines : list str) (i : nat)
    (characters : list (character (Z * Z)))
  : option (result (list (character (Z * Z)))) :=
  match fuel with
  | O => None
  | S fuel' =>
      if length lines <=? i then Some (ret characters)
      else
        match while_body lines i characters with
        | Next i' characters' => while_loop fuel' lines i' characters'
        | Break characters' => Some (ret characters')
        | Raised e => Some (raise e)
        end
  end.

(** The lines of the text: [content.strip().split('\n')]. *)
Definition lines_of (content : str) : list str := split NL (strip content).

Definition parse_tdic (content : str)
  : option (result (list (character (Z * Z)))) :=
  let lines := lines_of content in
  while_loop (S (length lines)) lines 0 [].

End Parser.

(* ================================================================== *)
(** ** The stroke normaliser: [normalize_strokes] *)

Section Normalizer.

Local Open Scope Q_scope.

(** [min(l)] and [max(l)]; they are only called on a non-empty list (on the
    empty one Python raises, here the value is 0). *)
Definition min_of (l : list Q) : Q :=
  match l with
  | [] => 0
  | x :: l' => fold_left Qmin l' x
  end.

Definition max_of (l : list Q) : Q :=
  match l with
  | [] => 0
  | x :: l' => fold_left Qmax l' x
  end.

(** [[p[0] for s in strokes for p in s]] and [[p[1] for ...]] *)
Definition xs_of (strokes : list (list (Q * Q))) : list Q :=
  flat_map (fun s => map fst s) strokes.
Definition ys_of (strokes : list (list (Q * Q))) : list Q :=
  flat_map (fun s => map snd s) strokes.

(** [scale = max(width, height)], replaced by 1 when it is 0. *)
Definition scale_of (width height : Q) : Q :=
  let scale := Qmax width height in
  if Qeq_bool scale 0 then 1 else scale.

(** The new coordinates of one point. *)
Definition norm_point (min_x min_y scale : Q) (p : Q * Q) : Q * Q :=
  let (x, y) := p in
  let norm_x := (x - min_x) / scale in
  let norm_y := (y - min_y) / scale in
  (norm_x, norm_y).

(** One coordinate of [norm_point]. *)
Definition norm_coord (m scale v : Q) : Q := (v - m) / scale.

Definition normalize_strokes (strokes : list (list (Q * Q)))
  : list (list (Q * Q)) :=
  let all_x := xs_of strokes in
  let all_y := ys_of strokes in
  if negb (truthy all_x) || negb (truthy all_y) then []
  else
    let min_x := min_of all_x in
    let max_x := max_of all_x in
    let min_y := min_of all_y in
    let max_y := max_of all_y in
    let width := max_x - min_x in
    let height := max_y - min_y in
    let scale := scale_of width height in
    map (fun stroke => map (norm_point min_x min_y scale) stroke) strokes.

(** The extent of a list of coordinates: the width of the bounding box for
    the abscissas, its height for the ordinates. *)
Definition span (l : list Q) : Q := max_of l - min_of l.

(** The integer points of the parser as numbers. *)
Definition number (p : Z * Z) : Q * Q := (inject_Z (fst p), inject_Z (snd p)).
Definition numbers (strokes : list (list (Z * Z))) : list (list (Q * Q)) :=
  map (map number) strokes.

(** [for char_data in characters:
       char_data['strokes'] = normalize_strokes(char_data['strokes'])] *)
Definition normalize_all (characters : list (character (Z * Z)))
  : list (character (Q * Q)) :=
  map (fun char_data =>
         {| char := char char_data;
            strokes := normalize_strokes (numbers (strokes char_data)) |})
      characters.

(** The characters that [main] hands to the serialiser. *)
Definition main (py : interp) (content : str)
  : option (result (list (character (Q * Q)))) :=
  match parse_tdic py content with
  | None => None
  | Some (inl e) => Some (raise e)
  | Some (inr characters) => Some (ret (normalize_all characters))
  end.

(** Equality of numbers, point by point. *)
Definition point_eq (p q : Q * Q) : Prop := fst p == fst q /\ snd p == snd q.
Definition strokes_eq (a b : list (list (Q * Q))) : Prop :=
  Forall2 (Forall2 point_eq) a b.

Definition point_eqb (p q : Q * Q) : bool :=
  Qeq_bool (fst p) (fst q) && Qeq_bool (snd p) (snd q).

Fixpoint forallb2 {A} (f : A -> A -> bool) (a b : list A) : bool :=
  match a, b with
  | [], [] => true
  | x :: a', y :: b' => f x y && forallb2 f a' b'
  | _, _ => false
  end.

Definition strokes_eqb (a b : list (list (Q * Q))) : bool :=
  forallb2 (forallb2 point_eqb) a b.

End Normalizer.

(* ================================================================== *)
(** ** Notions used to state the properties *)

Section Notions.

Variable py : interp.

(** A line that is not blank. *)
Definition nonblank (l : str) : bool := truthy (strip l).

(** A trimmed line that the loop takes for a glyph line: not blank, not
    begun by one of the two variant markers, not begun by the colon. *)
Definition glyph_line (line : str) : bool :=
  truthy line
  && negb (startswith [KYU] line || startswith [SHIN] line)
  && negb (startswith [COLON] line).

(** The lines that the stroke loop reads when it starts on [rest] with [n]
    iterations to go: at most [n], and none after a blank one, on which the
    cursor stays. *)
Fixpoint inspected_lines (n : nat) (rest : list str) : list str :=
  match n, rest with
  | S n', l :: rest' =>
      l :: (if nonblank l then inspected_lines n' rest' else [])
  | _, _ => []
  end.

(** A line that is not blank and gives at least one coordinate pair. *)
Definition yields_coords (l : str) : bool :=
  nonblank l && truthy (parse_stroke_line py (strip l)).

(** The record [r] comes from the block whose glyph line is line [i] and
    whose count line declares [N] strokes. *)
Definition block_at (lines : list str) (i : nat) (N : Z)
    (r : character (Z * Z)) : Prop :=
  i + 1 < length lines
  /\ glyph_line (strip (nth i lines [])) = true
  /\ char r = strip (nth i lines [])
  /\ startswith [COLON] (strip (nth (i + 1) lines [])) = true
  /\ int py (slice_from 1 (strip (nth (i + 1) lines []))) = inr N
  /\ strokes r = snd (stroke_loop py lines (range N) (i + 2) []).

(** The states in which the [while] loop tests its condition. *)
Inductive reaches (lines : list str)
  : nat -> list (character (Z * Z)) -> Prop :=
| reaches_start : reaches lines 0 []
| reaches_next i characters i' characters' :
    reaches lines i characters ->
    i < length lines ->
    while_body py lines i characters = Next i' characters' ->
    reaches lines i' characters'.

(** The seven ways through the body. *)
Inductive body_case (lines : list str) (i : nat)
    (characters : list (character (Z * Z))) : flow -> Prop :=
| case_blank :
    nonblank (nth i lines []) = false ->
    body_case lines i characters (Next (i + 1) characters)
| case_variant :
    startswith [KYU] (strip (nth i lines []))
    || startswith [SHIN] (strip (nth i lines [])) = true ->
    body_case lines i characters
      (Next (skip_lines (skipn (i + 1) lines) (i + 1)) characters)
| case_orphan_colon :
    startswith [COLON] (strip (nth i lines [])) = true ->
    body_case lines i characters (Next (i + 1) characters)
| case_glyph_last :
    glyph_line (strip (nth i lines [])) = true ->
    length lines <= i + 1 ->
    body_case lines i characters (Break characters)
| case_glyph_alone :
    glyph_line (strip (nth i lines [])) = true ->
    i + 1 < length lines ->
    startswith [COLON] (strip (nth (i + 1) lines [])) = false ->
    body_case lines i characters (Next (i + 1) characters)
| case_glyph_raise e :
    glyph_line (strip (nth i lines [])) = true ->
    i + 1 < length lines ->
    startswith [COLON] (strip (nth (i + 1) lines [])) = true ->
    int py (slice_from 1 (strip (nth (i + 1) lines []))) = inl e ->
    body_case lines i characters (Raised e)
| case_glyph_block N :
    glyph_line (strip (nth i lines [])) = true ->
    i + 1 < length lines ->
    startswith [COLON] (strip (nth (i + 1) lines [])) = true ->
    int py (slice_from 1 (strip (nth (i + 1) lines []))) = inr N ->
    body_case lines i characters
      (let (j, strokes) := stroke_loop py lines (range N) (i + 2) [] in
       if truthy strokes
       then Next j (characters ++
                    [{| char := strip (nth i lines []);
                        strokes := strokes |}])
       else Next j characters).

End Notions.

(* ================================================================== *)
(** ** Worked inputs *)

Definition HIRAGANA_A : str := [0x3042%N].
Definition HIRAGANA_I : str := [0x3044%N].

(** The block of the first example of the format. *)
Definition one_block : str :=
  join NL [HIRAGANA_A; u ":1"; u "3 (0 0) (10 0) (10 10)"] ++ [NL].

(** Three strokes declared, a blank line in second place. *)
Definition blank_in_block : list str :=
  [HIRAGANA_A; u ":3"; u "1 (0 0)"; []; u "1 (5 5)"].

(** Two glyph lines in a row. *)
Definition two_glyphs : list str :=
  [HIRAGANA_A; HIRAGANA_I; u ":1"; u "1 (0 0)"].

(** A variant block, a blank line, a block. *)
Definition variant_then_block : list str :=
  [KYU :: HIRAGANA_A; u ":1"; u "1 (0 0)"; [];
   HIRAGANA_I; u ":1"; u "1 (7 8)"].

(** A count that is no number; a count that is negative. *)
Definition bad_count : list str := [HIRAGANA_A; u ":x"; u "1 (0 0)"].
Definition negative_count : list str :=
  [HIRAGANA_A; u ":-2"; u "1 (0 0)"; u ":1"; u "1 (1 2)"].

(** The entry of the character U+65E7 itself. *)
Definition kyu_entry : list str := [[KYU]; u ":1"; u "2 (0 0) (4 4)"].

(** The records of the first and of the fourth input. *)
Definition one_block_record : character (Z * Z) :=
  {| char := HIRAGANA_A; strokes := [[(0, 0); (10, 0); (10, 10)]]%Z |}.
Definition after_variant_record : character (Z * Z) :=
  {| char := HIRAGANA_I; strokes := [[(7, 8)]]%Z |}.

(** A character of one point, and one of three strokes. *)
Definition single_point : list (list (Q * Q)) := numbers [[(5, 5)%Z]].
Definition three_strokes : list (list (Q * Q)) :=
  numbers [[(3, 4); (10, 0)]; [(7, 10)]; [(5, 2); (5, 9)]]%Z.

(* ================================================================== *)
(** ** The statistics of [main] *)

Section Statistics.

Local Open Scope N_scope.

(** [a <= b] on strings: the order of the code points, the shorter of two
    strings first when one begins the other. *)
Fixpoint str_le (a b : str) : bool :=
  match a, b with
  | [], _ => true
  | _ :: _, [] => false
  | x :: a', y :: b' =>
      if x <? y then true
      else if x =? y then str_le a' b'
      else false
  end.

(** [lo <= c['char'] <= hi] for two one-character strings. *)
Definition in_block {P} (lo hi : codepoint) (c : character P) : bool :=
  str_le [lo] (char c) && str_le (char c) [hi].

Definition hiragana {P} (characters : list (character P))
  : list (character P) := filter (in_block 0x3040 0x309F) characters.
Definition katakana {P} (characters : list (character P))
  : list (character P) := filter (in_block 0x30A0 0x30FF) characters.
Definition kanji {P} (characters : list (character P))
  : list (character P) := filter (in_block 0x4E00 0x9FAF) characters.

(** The number printed after [Others:]. *)
Definition others {P} (characters : list (character P)) : Z :=
  (Z.of_nat (length characters) - Z.of_nat (length (hiragana characters))
   - Z.of_nat (length (katakana characters))
   - Z.of_nat (length (kanji characters)))%Z.

End Statistics.

(* ================================================================== *)
(** ** Further notions *)

Section FurtherNotions.

(** Strings of white space only. *)
Definition whitespace (s : str) : bool := forallb isspace s.

(** A line that the loop does not take for a glyph line. *)
Definition no_glyph (l : str) : bool := negb (glyph_line (strip l)).

(** The line on which the loop goes on after the block whose glyph line is
    line [k] and whose count line declares [N] strokes: the block is made of
    the lines from [k] up to this one, which is left out. *)
Definition block_end (py : interp) (lines : list str) (k : nat) (N : Z)
  : nat :=
  fst (stroke_loop py lines (range N) (k + 2) []).

(** The blocks [bs], each given by its glyph line and its declared count,
    lie between the lines [lo] and [hi] in this order: each is three lines
    long at least and ends before the next one starts. *)
Fixpoint blocks_apart (py : interp) (lines : list str) (lo : nat)
    (bs : list (nat * Z)) (hi : nat) : Prop :=
  match bs with
  | [] => lo <= hi
  | (k, N) :: bs' =>
      lo <= k
      /\ k + 3 <= block_end py lines k N
      /\ blocks_apart py lines (block_end py lines k N) bs' hi
  end.

(** A record in none of the three ranges of the statistics. *)
Definition unclassified {P} (c : character P) : bool :=
  negb (in_block 0x3040 0x309F c) && negb (in_block 0x30A0 0x30FF c)
  && negb (in_block 0x4E00 0x9FAF c).

(** The strokes moved by [(dx, dy)], and magnified by [k]. *)
Definition translate (dx dy : Q) (strokes : list (list (Q * Q)))
  : list (list (Q * Q)) :=
  map (map (fun p : Q * Q => (fst p + dx, snd p + dy)%Q)) strokes.

Definition magnify (k : Q) (strokes : list (list (Q * Q)))
  : list (list (Q * Q)) :=
  map (map (fun p : Q * Q => (k * fst p, k * snd p)%Q)) strokes.

(** All the coordinates of a record. *)
Definition coordinates (c : character (Q * Q)) : list Q :=
  xs_of (strokes c) ++ ys_of (strokes c).

End FurtherNotions.

(** The integer literal that [int] reads in a string, with the number of
    its digits, before the limit on the digits is applied: [None] when the
    string is no integer literal. *)
Definition unsigned_literal (py : interp) (s : str) : option (Z * N) :=
  match s with
  | [] => None
  | c :: r =>
      match digit py c with
      | None => None
      | Some v => digits py v 1%N r
      end
  end.

Definition literal (py : interp) (s : str) : option (Z * N) :=
  match int_rskip (int_lskip s) with
  | [] => None
  | c :: r =>
      if (c =? MINUS)%N then
        match unsigned_literal py r with
        | Some (z, n) => Some ((- z)%Z, n)
        | None => None
        end
      else if (c =? PLUS)%N then unsigned_literal py r
      else unsigned_literal py (c :: r)
  end.

(** A count of 4301 digits, and a block that declares it. *)
Definition long_count : str := repeat 0x31%N (N.to_nat 4301).
Definition long_count_block : str :=
  HIRAGANA_A ++ NL :: COLON :: long_count ++ NL :: u "1 (0 0)".

(** The loop of [parse_tdic] on the lines of a text. *)
Definition parse_lines (py : interp) (lines : list str)
  : option (result (list (character (Z * Z)))) :=
  while_loop py (S (length lines)) lines 0 [].

(** The outcome of one parse followed by another: the first exception, or
    the records of the first and then those of the second. *)
Definition and_then (first second : option (result (list (character (Z * Z)))))
  : option (result (list (character (Z * Z)))) :=
  match first with
  | Some (inr a) =>
      match second with
      | Some (inr b) => Some (inr (a ++ b))
      | other => other
      end
  | other => other
  end.

(** An iteration on the lines [lb], seen from lines [pre ++ lb] and after
    the records [before]. *)
Definition shift_flow (pre : list str) (before : list (character (Z * Z)))
    (f : flow) : flow :=
  match f with
  | Next j characters => Next (length pre + j) (before ++ characters)
  | Break characters => Break (before ++ characters)
  | Raised e => Raised e
  end.

(** An iteration on the lines [la] and the same iteration when a blank
    line and other lines follow [la]: the [break] on a last glyph line
    becomes a step on to the blank line. *)
Definition followed_flow (i : nat) (f : flow) : flow :=
  match f with
  | Break characters => Next (i + 1) characters
  | other => other
  end.

(** Two blocks with a blank line between them. *)
Definition first_lines : list str :=
  [HIRAGANA_A; u ":3"; u "2 (0 0) (4 4)"].
Definition second_lines : list str :=
  [HIRAGANA_I; u ":1"; u "1 (7 8)"].

(** A block cut short by the end of the input, lines with white space
    around them, and glyphs for the statistics. *)
Definition truncated_block : list str :=
  [HIRAGANA_A; u ":5"; u "2 (1 2) (3 4)"; u "1 (5 6)"].
Definition padded_block : list str :=
  [SP :: HIRAGANA_A ++ [SP]; u "  :1"; u "   1 (0 0)  "].
Definition no_glyph_input : list str := [u ":3"; []; u "  :x"; u ": 7"].
Definition mixed_glyphs : list (character (Z * Z)) :=
  [{| char := HIRAGANA_A; strokes := [] |};
   {| char := [0x30A2%N]; strokes := [] |};
   {| char := [0x4E00%N]; strokes := [] |};
   {| char := u "A"; strokes := [] |};
   {| char := [0x309F%N; 0x3042%N]; strokes := [] |}].

(* ================================================================== *)
(** ** The stroke loop *)

Section StrokeLoop.

Variable py : interp.

Lemma skipn_cursor (lines : list str) i :
  i < length lines -> skipn i lines = nth i lines [] :: skipn (S i) lines.
Proof.
  revert i; induction lines as [|l lines IH]; intros i Hi; simpl in Hi.
  - lia.
  - destruct i as [|i]; [reflexivity|].
    simpl. apply IH. lia.
Qed.

Lemma stroke_loop_S lines n i strokes :
  stroke_loop py lines (S n) i strokes =
  if length lines <=? i then (i, strokes)
  else if negb (truthy (strip (nth i lines [])))
       then stroke_loop py lines n i strokes
       else stroke_loop py lines n (i + 1)
              (if truthy (parse_stroke_line py (strip (nth i lines [])))
               then strokes ++ [parse_stroke_line py (strip (nth i lines []))]
               else strokes).
Proof. reflexivity. Qed.

(** On a blank line the loop keeps the cursor and the strokes, whatever
    the number of iterations left. *)
Lemma stroke_loop_blank lines n i strokes :
  i < length lines ->
  nonblank (nth i lines []) = false ->
  stroke_loop py lines n i strokes = (i, strokes).
Proof.
  intros Hi Hb. induction n as [|n IH]; [reflexivity|].
  rewrite stroke_loop_S.
  destruct (Nat.leb_spec (length lines) i) as [Hle|_]; [lia|].
  unfold nonblank in Hb. rewrite Hb. simpl. exact IH.
Qed.

Lemma yields_coords_blank l : nonblank l = false -> yields_coords py l = false.
Proof. unfold yields_coords. intros ->. reflexivity. Qed.

(** The loop in terms of the lines it reads: the cursor moves over the
    non-blank ones, and the strokes are the coordinate lists of those that
    have a pair. *)
Lemma stroke_loop_spec lines n : forall i strokes,
  stroke_loop py lines n i strokes =
  (i + length (filter nonblank (inspected_lines n (skipn i lines))),
   strokes ++ map (fun l => parse_stroke_line py (strip l))
                  (filter (yields_coords py)
                          (inspected_lines n (skipn i lines)))).
Proof.
  induction n as [|n IH]; intros i strokes.
  - simpl. now rewrite Nat.add_0_r, app_nil_r.
  - destruct (Nat.leb_spec (length lines) i) as [Hle|Hlt].
    + rewrite stroke_loop_S. apply Nat.leb_le in Hle. rewrite Hle.
      apply Nat.leb_le in Hle. rewrite (skipn_all2 lines Hle). simpl.
      now rewrite Nat.add_0_r, app_nil_r.
    + destruct (nonblank (nth i lines [])) eqn:Hb.
      * rewrite stroke_loop_S.
        assert (Hn : (length lines <=? i) = false) by (apply Nat.leb_gt; lia).
        rewrite Hn. pose proof Hb as Hb'. unfold nonblank in Hb'.
        rewrite Hb'. simpl negb. cbv iota.
        rewrite (skipn_cursor lines i Hlt). simpl inspected_lines.
        rewrite Hb. simpl filter. rewrite Hb.
        unfold yields_coords at 1. rewrite Hb. simpl andb.
        rewrite IH. replace (i + 1) with (S i) by lia.
        destruct (truthy (parse_stroke_line py (strip (nth i lines []))));
          simpl; f_equal; try lia.
        now rewrite <- app_assoc.
      * rewrite (stroke_loop_blank lines (S n) i strokes Hlt Hb).
        rewrite (skipn_cursor lines i Hlt). simpl inspected_lines. rewrite Hb.
        simpl. rewrite Hb, (yields_coords_blank _ Hb). simpl.
        now rewrite Nat.add_0_r, app_nil_r.
Qed.

Lemma inspected_lines_length n : forall rest,
  length (inspected_lines n rest) <= n.
Proof.
  induction n as [|n IH]; intros [|l rest]; simpl; try lia.
  destruct (nonblank l); simpl; [specialize (IH rest)|]; lia.
Qed.

Lemma yields_coords_nonblank l : yields_coords py l = true -> nonblank l = true.
Proof. unfold yields_coords. now intros [H _]%andb_prop. Qed.

Lemma filter_yields_le (ls : list str) :
  length (filter (yields_coords py) ls) <= length (filter nonblank ls).
Proof.
  induction ls as [|l ls IH]; simpl; [lia|].
  destruct (yields_coords py l) eqn:Hy.
  - rewrite (yields_coords_nonblank _ Hy). simpl. lia.
  - destruct (nonblank l); simpl; lia.
Qed.

Lemma stroke_loop_cursor lines n i strokes :
  i <= fst (stroke_loop py lines n i strokes).
Proof. rewrite stroke_loop_spec. simpl. lia. Qed.

(** Every stroke that the loop adds has a point. *)
Lemma stroke_loop_nonempty lines n i strokes :
  Forall (fun s => s <> []) strokes ->
  Forall (fun s => s <> []) (snd (stroke_loop py lines n i strokes)).
Proof.
  intros H. rewrite stroke_loop_spec. simpl.
  apply Forall_app. split; [exact H|].
  apply Forall_forall. intros s [l [<- Hl]]%in_map_iff.
  apply filter_In in Hl. destruct Hl as [_ Hy].
  unfold yields_coords in Hy. apply andb_prop in Hy. destruct Hy as [_ Hy].
  intros E. rewrite E in Hy. discriminate.
Qed.

(** No iteration: the cursor and the strokes are those of the start. *)
Lemma stroke_loop_no_iteration lines N i strokes :
  (N <= 0)%Z -> stroke_loop py lines (range N) i strokes = (i, strokes).
Proof.
  intros HN. unfold range.
  replace (Z.to_nat N) with 0 by lia. reflexivity.
Qed.

End StrokeLoop.

(* ================================================================== *)
(** ** The body of the [while] loop, branch by branch *)

Section WhileBody.

Variable py : interp.

Lemma startswith_truthy c (line : str) :
  startswith [c] line = true -> truthy line = true.
Proof. destruct line; simpl; [discriminate|reflexivity]. Qed.

Lemma glyph_line_inv line :
  glyph_line line = true ->
  truthy line = true
  /\ startswith [KYU] line || startswith [SHIN] line = false
  /\ startswith [COLON] line = false.
Proof.
  unfold glyph_line. intros H.
  apply andb_prop in H. destruct H as [H Hc].
  apply andb_prop in H. destruct H as [Ht Hv].
  apply negb_true_iff in Hc. apply negb_true_iff in Hv. auto.
Qed.

Lemma glyph_line_intro line :
  truthy line = true ->
  startswith [KYU] line || startswith [SHIN] line = false ->
  startswith [COLON] line = false ->
  glyph_line line = true.
Proof. unfold glyph_line. intros -> -> ->. reflexivity. Qed.

(** The body as nested tests. *)
Lemma while_body_eq lines i characters :
  while_body py lines i characters =
  if negb (truthy (strip (nth i lines []))) then Next (i + 1) characters
  else if startswith [KYU] (strip (nth i lines []))
          || startswith [SHIN] (strip (nth i lines []))
  then Next (skip_lines (skipn (i + 1) lines) (i + 1)) characters
  else if negb (startswith [COLON] (strip (nth i lines []))) then
    if length lines <=? i + 1 then Break characters
    else if negb (startswith [COLON] (strip (nth (i + 1) lines [])))
    then Next (i + 1) characters
    else match int py (slice_from 1 (strip (nth (i + 1) lines []))) with
         | inl e => Raised e
         | inr stroke_count =>
             if truthy (snd (stroke_loop py lines (range stroke_count)
                                         (i + 1 + 1) []))
             then Next (fst (stroke_loop py lines (range stroke_count)
                                         (i + 1 + 1) []))
                       (characters ++
                        [{| char := strip (nth i lines []);
                            strokes := snd (stroke_loop py lines
                                              (range stroke_count)
                                              (i + 1 + 1) []) |}])
             else Next (fst (stroke_loop py lines (range stroke_count)
                                         (i + 1 + 1) []))
                       characters
         end
  else Next (i + 1) characters.
Proof.
  unfold while_body. cbv zeta.
  repeat match goal with
         | |- context [if ?b then _ else _] => destruct b; try reflexivity
         end.
  destruct (int py _) as [e|N]; [reflexivity|].
  destruct (stroke_loop py lines (range N) (i + 1 + 1) []) as [j strokes].
  reflexivity.
Qed.

Lemma while_body_blank lines i characters :
  nonblank (nth i lines []) = false ->
  while_body py lines i characters = Next (i + 1) characters.
Proof.
  unfold nonblank. intros H. rewrite while_body_eq, H. reflexivity.
Qed.

Lemma while_body_variant lines i characters :
  startswith [KYU] (strip (nth i lines []))
  || startswith [SHIN] (strip (nth i lines [])) = true ->
  while_body py lines i characters =
  Next (skip_lines (skipn (i + 1) lines) (i + 1)) characters.
Proof.
  intros H. rewrite while_body_eq, H.
  assert (Ht : truthy (strip (nth i lines [])) = true).
  { apply orb_prop in H. destruct H as [H|H];
      exact (startswith_truthy _ _ H). }
  rewrite Ht. reflexivity.
Qed.

Lemma while_body_orphan_colon lines i characters :
  startswith [COLON] (strip (nth i lines [])) = true ->
  while_body py lines i characters = Next (i + 1) characters.
Proof.
  intros H. rewrite while_body_eq.
  destruct (strip (nth i lines [])) as [|c r]; [discriminate|].
  assert (Hc : COLON = c).
  { unfold startswith in H. apply andb_prop in H. destruct H as [H _].
    now apply N.eqb_eq in H. }
  subst c. reflexivity.
Qed.

Lemma while_body_glyph_last lines i characters :
  glyph_line (strip (nth i lines [])) = true ->
  length lines <= i + 1 ->
  while_body py lines i characters = Break characters.
Proof.
  intros Hg Hlen. destruct (glyph_line_inv _ Hg) as (Ht & Hv & Hc).
  rewrite while_body_eq, Ht, Hv, Hc. simpl.
  apply Nat.leb_le in Hlen. rewrite Hlen. reflexivity.
Qed.

Lemma while_body_glyph_alone lines i characters :
  glyph_line (strip (nth i lines [])) = true ->
  i + 1 < length lines ->
  startswith [COLON] (strip (nth (i + 1) lines [])) = false ->
  while_body py lines i characters = Next (i + 1) characters.
Proof.
  intros Hg Hlen Hn. destruct (glyph_line_inv _ Hg) as (Ht & Hv & Hc).
  rewrite while_body_eq, Ht, Hv, Hc, Hn. simpl.
  apply Nat.leb_gt in Hlen. rewrite Hlen. reflexivity.
Qed.

Lemma while_body_glyph_raise lines i characters e :
  glyph_line (strip (nth i lines [])) = true ->
  i + 1 < length lines ->
  startswith [COLON] (strip (nth (i + 1) lines [])) = true ->
  int py (slice_from 1 (strip (nth (i + 1) lines []))) = inl e ->
  while_body py lines i characters = Raised e.
Proof.
  intros Hg Hlen Hn He. destruct (glyph_line_inv _ Hg) as (Ht & Hv & Hc).
  rewrite while_body_eq, Ht, Hv, Hc, Hn, He. simpl.
  apply Nat.leb_gt in Hlen. rewrite Hlen. reflexivity.
Qed.

Lemma while_body_glyph_block lines i characters N :
  glyph_line (strip (nth i lines [])) = true ->
  i + 1 < length lines ->
  startswith [COLON] (strip (nth (i + 1) lines [])) = true ->
  int py (slice_from 1 (strip (nth (i + 1) lines []))) = inr N ->
  while_body py lines i characters =
  let (j, strokes) := stroke_loop py lines (range N) (i + 2) [] in
  if truthy strokes
  then Next j (characters ++
               [{| char := strip (nth i lines []); strokes := strokes |}])
  else Next j characters.
Proof.
  intros Hg Hlen Hn He. destruct (glyph_line_inv _ Hg) as (Ht & Hv & Hc).
  rewrite while_body_eq, Ht, Hv, Hc, Hn, He. simpl negb. cbv iota.
  apply Nat.leb_gt in Hlen. rewrite Hlen.
  replace (i + 1 + 1) with (i + 2) by lia.
  destruct (stroke_loop py lines (range N) (i + 2) []) as [j strokes].
  reflexivity.
Qed.

Lemma while_body_case lines i characters :
  body_case py lines i characters (while_body py lines i characters).
Proof.
  destruct (nonblank (nth i lines [])) eqn:Hb.
  2:{ rewrite (while_body_blank _ _ _ Hb). now constructor. }
  destruct (startswith [KYU] (strip (nth i lines []))
            || startswith [SHIN] (strip (nth i lines []))) eqn:Hv.
  { rewrite (while_body_variant _ _ _ Hv). now constructor. }
  destruct (startswith [COLON] (strip (nth i lines []))) eqn:Hc.
  { rewrite (while_body_orphan_colon _ _ _ Hc). now apply case_orphan_colon. }
  pose proof (glyph_line_intro _ Hb Hv Hc) as Hg.
  destruct (Nat.leb_spec (length lines) (i + 1)) as [Hle|Hlt].
  { rewrite (while_body_glyph_last _ _ _ Hg Hle). now constructor. }
  destruct (startswith [COLON] (strip (nth (i + 1) lines []))) eqn:Hn.
  2:{ rewrite (while_body_glyph_alone _ _ _ Hg Hlt Hn). now constructor. }
  destruct (int py (slice_from 1 (strip (nth (i + 1) lines [])))) as [e|N] eqn:He.
  - rewrite (while_body_glyph_raise _ _ _ _ Hg Hlt Hn He). now constructor.
  - rewrite (while_body_glyph_block _ _ _ _ Hg Hlt Hn He). now constructor.
Qed.

End WhileBody.

(* ================================================================== *)
(** ** The [while] loop: progress, termination, reachable states *)

Section WhileLoop.

Variable py : interp.

(** The inner [while] stops on the first blank line, or at the end. *)
Lemma skip_lines_spec rest : forall i,
  i <= skip_lines rest i <= i + length rest
  /\ (forall k, k < skip_lines rest i - i -> nonblank (nth k rest []) = true)
  /\ (skip_lines rest i = i + length rest
      \/ (skip_lines rest i < i + length rest
          /\ nonblank (nth (skip_lines rest i - i) rest []) = false)).
Proof.
  induction rest as [|l rest IH]; intros i; simpl.
  - repeat split; lia.
  - destruct (truthy (strip l)) eqn:Hl.
    + destruct (IH (i + 1)) as (Hr & Hall & Hend).
      split; [lia|]. split.
      * intros [|k] Hk; [exact Hl|]. apply Hall. lia.
      * destruct Hend as [Hend|[Hlt Hb]]; [left; lia|right].
        split; [lia|].
        replace (skip_lines rest (i + 1) - i)
          with (S (skip_lines rest (i + 1) - (i + 1))) by lia.
        exact Hb.
    + split; [lia|]. split; [intros k Hk; lia|].
      right. split; [lia|]. now rewrite Nat.sub_diag.
Qed.

(** Every iteration that goes on moves the cursor forward. *)
Lemma while_body_progress lines i characters i' characters' :
  while_body py lines i characters = Next i' characters' -> i < i'.
Proof.
  intros H. pose proof (while_body_case py lines i characters) as Hc.
  rewrite H in Hc. clear H.
  inversion Hc as [ | | | | | | N Hg Hlt Hn He Hf]; subst; try lia.
  - pose proof (skip_lines_spec (skipn (i + 1) lines) (i + 1)). lia.
  - pose proof (stroke_loop_cursor py lines (range N) (i + 2) []) as Hj.
    destruct (stroke_loop py lines (range N) (i + 2) []) as [j strokes].
    simpl in Hj. destruct (truthy strokes); inversion Hf; lia.
Qed.

(** [break] leaves the list as it is. *)
Lemma while_body_break lines i characters characters' :
  while_body py lines i characters = Break characters' ->
  characters' = characters.
Proof.
  intros H. pose proof (while_body_case py lines i characters) as Hc.
  rewrite H in Hc. clear H.
  inversion Hc as [ | | | | | | N Hg Hlt Hn He Hf]; subst; try reflexivity.
  destruct (stroke_loop py lines (range N) (i + 2) []) as [j strokes].
  destruct (truthy strokes); discriminate.
Qed.

(** An iteration adds nothing, or the record of the block at the cursor. *)
Lemma while_body_emits lines i characters i' characters' :
  while_body py lines i characters = Next i' characters' ->
  characters' = characters
  \/ exists N r,
       block_at py lines i N r /\ strokes r <> []
       /\ characters' = characters ++ [r].
Proof.
  intros H. pose proof (while_body_case py lines i characters) as Hc.
  rewrite H in Hc. clear H.
  inversion Hc as [ | | | | | | N Hg Hlt Hn He Hf]; subst; auto.
  destruct (stroke_loop py lines (range N) (i + 2) []) as [j strokes] eqn:Hs.
  destruct (truthy strokes) eqn:Ht; inversion Hf; subst; auto.
  right. exists N. eexists. split; [|split; [|reflexivity]].
  - unfold block_at. simpl. rewrite Hs. simpl. auto 10.
  - simpl. intros E. rewrite E in Ht. discriminate.
Qed.

(** An iteration raises exactly on a glyph line followed by a count line
    whose remainder is no integer. *)
Lemma while_body_raised lines i characters e :
  while_body py lines i characters = Raised e <->
  glyph_line (strip (nth i lines [])) = true
  /\ i + 1 < length lines
  /\ startswith [COLON] (strip (nth (i + 1) lines [])) = true
  /\ int py (slice_from 1 (strip (nth (i + 1) lines []))) = inl e.
Proof.
  split.
  - intros H. pose proof (while_body_case py lines i characters) as Hc.
    rewrite H in Hc. clear H.
    inversion Hc as [ | | | | | e' Hg Hlt Hn He | N Hg Hlt Hn He Hf]; subst.
    + destruct e, e'. auto 10.
    + destruct (stroke_loop py lines (range N) (i + 2) []) as [j strokes].
      destruct (truthy strokes); discriminate.
  - intros (Hg & Hlt & Hn & He).
    exact (while_body_glyph_raise py lines i characters e Hg Hlt Hn He).
Qed.

Lemma while_loop_S fuel lines i characters :
  while_loop py (S fuel) lines i characters =
  if length lines <=? i then Some (ret characters)
  else match while_body py lines i characters with
       | Next i' characters' => while_loop py fuel lines i' characters'
       | Break characters' => Some (ret characters')
       | Raised e => Some (raise e)
       end.
Proof. reflexivity. Qed.

(** With more fuel than lines left the loop does not depend on the fuel. *)
Lemma while_loop_fuel lines fuel : forall fuel' i characters,
  length lines - i < fuel -> length lines - i < fuel' ->
  while_loop py fuel lines i characters
  = while_loop py fuel' lines i characters.
Proof.
  induction fuel as [|fuel IH]; intros fuel' i characters H H'; [lia|].
  destruct fuel' as [|fuel']; [lia|].
  rewrite !while_loop_S.
  destruct (Nat.leb_spec (length lines) i) as [Hle|Hlt]; [reflexivity|].
  destruct (while_body py lines i characters) as [j cs| |] eqn:Hb;
    try reflexivity.
  apply while_body_progress in Hb. apply IH; lia.
Qed.

(** And it ends. *)
Lemma while_loop_terminates lines fuel : forall i characters,
  length lines - i < fuel ->
  exists r, while_loop py fuel lines i characters = Some r.
Proof.
  induction fuel as [|fuel IH]; intros i characters H; [lia|].
  rewrite while_loop_S.
  destruct (Nat.leb_spec (length lines) i) as [Hle|Hlt]; [eauto|].
  destruct (while_body py lines i characters) as [j cs| |] eqn:Hb; eauto.
  apply while_body_progress in Hb. apply IH; lia.
Qed.

Lemma parse_tdic_total content :
  exists r, parse_tdic py content = Some r.
Proof. unfold parse_tdic. apply while_loop_terminates. lia. Qed.

(** The loop from a state, with the fuel it needs. *)
Lemma while_loop_next lines i characters i' characters' :
  i < length lines ->
  while_body py lines i characters = Next i' characters' ->
  while_loop py (S (length lines)) lines i characters
  = while_loop py (S (length lines)) lines i' characters'.
Proof.
  intros Hlt Hb. rewrite while_loop_S at 1.
  apply Nat.leb_gt in Hlt. rewrite Hlt, Hb. apply Nat.leb_gt in Hlt.
  apply while_body_progress in Hb. apply while_loop_fuel; lia.
Qed.

Lemma reaches_while_loop lines i characters :
  reaches py lines i characters ->
  while_loop py (S (length lines)) lines 0 []
  = while_loop py (S (length lines)) lines i characters.
Proof.
  induction 1 as [|i cs i' cs' _ IH Hlt Hb]; [reflexivity|].
  rewrite IH. now apply while_loop_next.
Qed.

(** The list that the loop returns is the list of a reachable state. *)
Lemma while_loop_returns lines fuel : forall i characters out,
  reaches py lines i characters ->
  while_loop py fuel lines i characters = Some (inr out) ->
  exists j, reaches py lines j out.
Proof.
  induction fuel as [|fuel IH]; intros i characters out Hr H; [discriminate|].
  rewrite while_loop_S in H.
  destruct (Nat.leb_spec (length lines) i) as [Hle|Hlt].
  - inversion H; subst. eauto.
  - destruct (while_body py lines i characters) as [j cs|cs|e] eqn:Hb.
    + apply (IH j cs out); [|exact H]. econstructor; eauto.
    + inversion H; subst. apply while_body_break in Hb. subst. eauto.
    + discriminate.
Qed.

(** The exception that the loop lets through is raised by the body in a
    reachable state. *)
Lemma while_loop_raises lines fuel : forall i characters e,
  reaches py lines i characters ->
  while_loop py fuel lines i characters = Some (inl e) ->
  exists j cs, reaches py lines j cs /\ j < length lines
               /\ while_body py lines j cs = Raised e.
Proof.
  induction fuel as [|fuel IH]; intros i characters e Hr H; [discriminate|].
  rewrite while_loop_S in H.
  destruct (Nat.leb_spec (length lines) i) as [Hle|Hlt]; [discriminate|].
  destruct (while_body py lines i characters) as [j cs|cs|e'] eqn:Hb.
  - apply (IH j cs e); [|exact H]. econstructor; eauto.
  - discriminate.
  - destruct e, e'. exists i, characters. auto.
Qed.

(** Every record of a reachable state is the record of a block of the
    input, with at least one stroke. *)
Lemma reaches_records lines i characters :
  reaches py lines i characters ->
  Forall (fun r => exists k N, block_at py lines k N r /\ strokes r <> [])
         characters.
Proof.
  induction 1 as [|i cs i' cs' _ IH Hlt Hb]; [constructor|].
  apply while_body_emits in Hb.
  destruct Hb as [->|(N & r & Hblock & Hne & ->)]; [exact IH|].
  apply Forall_app. split; [exact IH|].
  constructor; [|constructor]. eauto.
Qed.

Lemma parse_tdic_records content characters r :
  parse_tdic py content = Some (inr characters) ->
  In r characters ->
  exists k N, block_at py (lines_of content) k N r /\ strokes r <> [].
Proof.
  unfold parse_tdic. intros H Hin.
  apply while_loop_returns in H; [|constructor].
  destruct H as [j Hj]. apply reaches_records in Hj.
  rewrite Forall_forall in Hj. exact (Hj r Hin).
Qed.

End WhileLoop.

(* ================================================================== *)
(** ** When [int] raises *)

Section IntFacts.

Variable py : interp.

Lemma unsigned_literal_spec s :
  unsigned py s
  = match unsigned_literal py s with
    | None => raise ValueError
    | Some (z, n) => if too_many_digits py n then raise ValueError else ret z
    end.
Proof.
  destruct s as [|c r]; simpl; [reflexivity|].
  destruct (digit py c); reflexivity.
Qed.

(** [int] reads the literal and then applies the limit on the digits. *)
Lemma int_literal s :
  int py s
  = match literal py s with
    | None => raise ValueError
    | Some (z, n) =>
        if too_many_digits py n then raise ValueError else ret z
    end.
Proof.
  unfold int, literal.
  destruct (int_rskip (int_lskip s)) as [|c r]; [reflexivity|].
  destruct (c =? MINUS)%N.
  - rewrite unsigned_literal_spec.
    destruct (unsigned_literal py r) as [[z n]|]; [|reflexivity].
    destruct (too_many_digits py n); reflexivity.
  - destruct (c =? PLUS)%N; apply unsigned_literal_spec.
Qed.

(** [int] raises on a string that is no integer literal, and on a literal
    that has more digits than the limit allows, and on nothing else. *)
Lemma int_raises s e :
  int py s = inl e <->
  literal py s = None
  \/ exists z n, literal py s = Some (z, n) /\ too_many_digits py n = true.
Proof.
  rewrite int_literal. destruct (literal py s) as [[z n]|].
  - destruct (too_many_digits py n) eqn:Hn; split.
    + intros _. right. eauto.
    + intros _. destruct e. reflexivity.
    + discriminate.
    + intros [H|(z' & n' & H & Hn')]; [discriminate|].
      inversion H; subst. congruence.
  - split; [now left|]. intros _. destruct e. reflexivity.
Qed.

End IntFacts.

(* ================================================================== *)
(** ** Properties of the parser *)

Section ParserProperties.

Variable py : interp.

(** C1 (the code differs from the claim). On a blank line inside a stroke
    block the loop does not move the cursor: with three strokes declared
    and the lines [1 (0 0)], blank, [1 (5 5)], the loop ends on the blank
    line (index 3) with the single stroke of the first line, and the record
    has one stroke; the line after the blank one is never read as a stroke
    line. *)
Theorem stroke_loop_stays_on_blank_line :
  stroke_loop py blank_in_block (range 3) 2 [] = (3, [[(0, 0)%Z]])
  /\ parse_tdic py (join NL blank_in_block)
     = Some (inr [{| char := HIRAGANA_A; strokes := [[(0, 0)%Z]] |}]).
Proof. split; vm_compute; reflexivity. Qed.

(** C2. [parse_tdic] ends, and every record that it returns comes from a
    block with a declared count [N]; its number of strokes is at most [N]
    and is the number of lines read by the stroke loop that are not blank
    and give at least one coordinate pair. *)
Theorem emitted_stroke_count content :
  (exists res, parse_tdic py content = Some res)
  /\ forall characters r,
       parse_tdic py content = Some (inr characters) ->
       In r characters ->
       exists i N,
         block_at py (lines_of content) i N r
         /\ (Z.of_nat (length (strokes r)) <= N)%Z
         /\ length (strokes r)
            = length (filter (yields_coords py)
                        (inspected_lines (range N)
                           (skipn (i + 2) (lines_of content)))).
Proof.
  split; [apply parse_tdic_total|].
  intros characters r Hp Hin.
  destruct (parse_tdic_records py content characters r Hp Hin)
    as (i & N & Hblock & Hne).
  exists i, N. split; [exact Hblock|].
  destruct Hblock as (_ & _ & _ & _ & _ & Hs).
  rewrite stroke_loop_spec in Hs. simpl in Hs.
  assert (Hlen : length (strokes r)
                 = length (filter (yields_coords py)
                             (inspected_lines (range N)
                                (skipn (i + 2) (lines_of content))))).
  { rewrite Hs. apply length_map. }
  split; [|exact Hlen].
  pose proof (filter_length_le (yields_coords py)
                (inspected_lines (range N)
                   (skipn (i + 2) (lines_of content)))) as H1.
  pose proof (inspected_lines_length (range N)
                (skipn (i + 2) (lines_of content))) as H2.
  assert (Hpos : 0 < length (strokes r)).
  { destruct (strokes r); [congruence|simpl; lia]. }
  unfold range in *. lia.
Qed.

(** C4, as the code has it. A fragment whose coordinates do not parse is
    dropped and the rest of the stroke line is still read, as on the line of
    the example; and [parse_tdic] raises exactly when the loop comes to a
    glyph line followed by a count line whose remainder after the colon is
    rejected by [int]: a remainder that is no integer literal, or an integer
    literal with more digits than the limit of the interpreter allows. *)
Theorem parse_raises_only_on_count_line content e :
  (forall part parts coords e',
      parse_coord py (slice_from (find LPAREN (strip part) + 1) (strip part))
      = inl e' ->
      coords_loop py (part :: parts) coords = coords_loop py parts coords)
  /\ parse_stroke_line py (u "2 (5 5) (bad 5) (15 15)")
     = [(5, 5); (15, 15)]%Z
  /\ (parse_tdic py content = Some (inl e) <->
      exists i characters,
        reaches py (lines_of content) i characters
        /\ glyph_line (strip (nth i (lines_of content) [])) = true
        /\ i + 1 < length (lines_of content)
        /\ startswith [COLON] (strip (nth (i + 1) (lines_of content) []))
           = true
        /\ int py (slice_from 1 (strip (nth (i + 1) (lines_of content) [])))
           = inl e)
  /\ (forall remainder,
        int py remainder = inl e <->
        literal py remainder = None
        \/ exists z n, literal py remainder = Some (z, n)
                       /\ too_many_digits py n = true).
Proof.
  split; [|split; [|split]].
  - intros part parts coords e' H. simpl. rewrite H.
    destruct (contains LPAREN (strip part)); destruct e'; reflexivity.
  - vm_compute. reflexivity.
  - unfold parse_tdic. split.
    + intros H. apply while_loop_raises in H; [|constructor].
      destruct H as (j & cs & Hr & Hlt & Hb).
      apply while_body_raised in Hb. exists j, cs. tauto.
    + intros (i & cs & Hr & Hg & Hlt & Hn & He).
      rewrite (reaches_while_loop py _ _ _ Hr), while_loop_S.
      assert (Hi : (length (lines_of content) <=? i) = false)
        by (apply Nat.leb_gt; lia).
      rewrite Hi.
      now rewrite (while_body_glyph_raise py _ _ cs e Hg Hlt Hn He).
  - intros remainder. apply int_raises.
Qed.

(** C7. When the line after a glyph line does not begin with the colon,
    the iteration adds no record and the next one starts on that very
    line; so of two glyph lines in a row the first gives no record and the
    second is the glyph line of the block that follows. *)
Theorem glyph_without_count_line lines i characters :
  glyph_line (strip (nth i lines [])) = true ->
  i + 1 < length lines ->
  startswith [COLON] (strip (nth (i + 1) lines [])) = false ->
  while_body py lines i characters = Next (i + 1) characters
  /\ (forall fuel,
        while_loop py (S fuel) lines i characters
        = while_loop py fuel lines (i + 1) characters)
  /\ (glyph_line (strip (nth (i + 1) lines [])) = true ->
      forall N,
        i + 2 < length lines ->
        startswith [COLON] (strip (nth (i + 2) lines [])) = true ->
        int py (slice_from 1 (strip (nth (i + 2) lines []))) = inr N ->
        while_body py lines (i + 1) characters
        = let (j, strokes) := stroke_loop py lines (range N) (i + 3) [] in
          if truthy strokes
          then Next j (characters ++
                       [{| char := strip (nth (i + 1) lines []);
                           strokes := strokes |}])
          else Next j characters)
  /\ parse_tdic py (join NL two_glyphs)
     = Some (inr [{| char := HIRAGANA_I; strokes := [[(0, 0)%Z]] |}]).
Proof.
  intros Hg Hlt Hn.
  pose proof (while_body_glyph_alone py lines i characters Hg Hlt Hn) as Hb.
  split; [exact Hb|]. split; [|split].
  - intros fuel. rewrite while_loop_S, Hb.
    assert (Hi : (length lines <=? i) = false) by (apply Nat.leb_gt; lia).
    now rewrite Hi.
  - intros Hg' N Hlt' Hn' He.
    replace (i + 2) with (i + 1 + 1) in Hlt', Hn', He by lia.
    rewrite (while_body_glyph_block py lines (i + 1) characters N
               Hg' Hlt' Hn' He).
    now replace (i + 1 + 2) with (i + 3) by lia.
  - vm_compute. reflexivity.
Qed.

(** C8. On a line that begins with one of the two variant markers the
    iteration adds no record and leaves the cursor on the first blank line
    after it, or at the end of the input: every line in between is not
    blank; from a blank line the next iteration goes one line further. *)
Theorem variant_block_skipped lines i characters :
  i < length lines ->
  startswith [KYU] (strip (nth i lines []))
  || startswith [SHIN] (strip (nth i lines [])) = true ->
  exists j,
    while_body py lines i characters = Next j characters
    /\ i < j <= length lines
    /\ (forall k, i < k < j -> nonblank (nth k lines []) = true)
    /\ (j = length lines
        \/ (j < length lines
            /\ nonblank (nth j lines []) = false
            /\ while_body py lines j characters = Next (j + 1) characters)).
Proof.
  intros Hi Hv.
  exists (skip_lines (skipn (i + 1) lines) (i + 1)).
  split; [exact (while_body_variant py lines i characters Hv)|].
  destruct (skip_lines_spec (skipn (i + 1) lines) (i + 1))
    as (Hr & Hall & Hend).
  rewrite length_skipn in Hr, Hend.
  set (j := skip_lines (skipn (i + 1) lines) (i + 1)) in *.
  split; [lia|]. split.
  - intros k Hk. specialize (Hall (k - (i + 1))).
    rewrite nth_skipn in Hall.
    replace (i + 1 + (k - (i + 1))) with k in Hall by lia.
    apply Hall. lia.
  - destruct Hend as [Hend|[Hlt Hb]]; [left; lia|right].
    rewrite nth_skipn in Hb.
    replace (i + 1 + (j - (i + 1))) with j in Hb by lia.
    split; [lia|]. split; [exact Hb|].
    exact (while_body_blank py lines j characters Hb).
Qed.

(** C9. When the count line that follows a glyph line declares an integer
    that is zero or negative, the stroke loop makes no iteration, the
    iteration of the parser raises nothing and adds no record, and the next
    iteration starts on the line after the count line. *)
Theorem nonpositive_stroke_count lines i characters N :
  glyph_line (strip (nth i lines [])) = true ->
  i + 1 < length lines ->
  startswith [COLON] (strip (nth (i + 1) lines [])) = true ->
  int py (slice_from 1 (strip (nth (i + 1) lines []))) = inr N ->
  (N <= 0)%Z ->
  stroke_loop py lines (range N) (i + 2) [] = (i + 2, [])
  /\ while_body py lines i characters = Next (i + 2) characters
  /\ (forall fuel,
        while_loop py (S fuel) lines i characters
        = while_loop py fuel lines (i + 2) characters).
Proof.
  intros Hg Hlt Hn He HN.
  pose proof (stroke_loop_no_iteration py lines N (i + 2) [] HN) as Hs.
  assert (Hb : while_body py lines i characters = Next (i + 2) characters).
  { rewrite (while_body_glyph_block py lines i characters N Hg Hlt Hn He).
    rewrite Hs. reflexivity. }
  split; [exact Hs|]. split; [exact Hb|].
  intros fuel. rewrite while_loop_S, Hb.
  assert (Hi : (length lines <=? i) = false) by (apply Nat.leb_gt; lia).
  now rewrite Hi.
Qed.

(** C10. [parse_tdic] ends, and no record that it returns has a glyph that
    begins with U+65E7 or with U+65B0; the entry of the character U+65E7
    itself is skipped as a variant block. *)
Theorem no_marker_glyph content :
  (exists res, parse_tdic py content = Some res)
  /\ (forall characters r,
        parse_tdic py content = Some (inr characters) ->
        In r characters ->
        startswith [KYU] (char r) = false
        /\ startswith [SHIN] (char r) = false)
  /\ parse_tdic py (join NL kyu_entry) = Some (inr []).
Proof.
  split; [apply parse_tdic_total|]. split; [|vm_compute; reflexivity].
  intros characters r Hp Hin.
  destruct (parse_tdic_records py content characters r Hp Hin)
    as (i & N & Hblock & _).
  destruct Hblock as (_ & Hg & Hc & _).
  rewrite Hc. apply glyph_line_inv in Hg. destruct Hg as (_ & Hv & _).
  apply orb_false_elim in Hv. exact Hv.
Qed.

End ParserProperties.

(* ================================================================== *)
(** ** The normaliser: minimum, maximum and scale *)

Section NormalizerFacts.

Local Open Scope Q_scope.

Lemma Qmin_cases x y : Qmin x y = x \/ Qmin x y = y.
Proof.
  unfold Qmin, GenericMinMax.gmin. destruct (x ?= y); auto.
Qed.

Lemma Qmax_cases x y : Qmax x y = x \/ Qmax x y = y.
Proof.
  unfold Qmax, GenericMinMax.gmax. destruct (x ?= y); auto.
Qed.

Lemma fold_min_le l : forall x,
  fold_left Qmin l x <= x /\ (forall y, In y l -> fold_left Qmin l x <= y).
Proof.
  induction l as [|a l IH]; intros x; simpl.
  - split; [apply Qle_refl|tauto].
  - destruct (IH (Qmin x a)) as [H1 H2].
    pose proof (Q.le_min_l x a). pose proof (Q.le_min_r x a).
    split; [lra|]. intros y [<-|Hy]; [lra|auto].
Qed.

Lemma fold_max_ge l : forall x,
  x <= fold_left Qmax l x /\ (forall y, In y l -> y <= fold_left Qmax l x).
Proof.
  induction l as [|a l IH]; intros x; simpl.
  - split; [apply Qle_refl|tauto].
  - destruct (IH (Qmax x a)) as [H1 H2].
    pose proof (Q.le_max_l x a). pose proof (Q.le_max_r x a).
    split; [lra|]. intros y [<-|Hy]; [lra|auto].
Qed.

Lemma fold_min_in l : forall x, In (fold_left Qmin l x) (x :: l).
Proof.
  induction l as [|a l IH]; intros x; simpl; [auto|].
  destruct (IH (Qmin x a)) as [H|H]; [|auto].
  rewrite <- H. destruct (Qmin_cases x a) as [->| ->]; auto.
Qed.

Lemma fold_max_in l : forall x, In (fold_left Qmax l x) (x :: l).
Proof.
  induction l as [|a l IH]; intros x; simpl; [auto|].
  destruct (IH (Qmax x a)) as [H|H]; [|auto].
  rewrite <- H. destruct (Qmax_cases x a) as [->| ->]; auto.
Qed.

Lemma min_of_le l y : In y l -> min_of l <= y.
Proof.
  destruct l as [|x l]; simpl; [tauto|].
  destruct (fold_min_le l x) as [H1 H2]. intros [<-|Hy]; auto.
Qed.

Lemma max_of_ge l y : In y l -> y <= max_of l.
Proof.
  destruct l as [|x l]; simpl; [tauto|].
  destruct (fold_max_ge l x) as [H1 H2]. intros [<-|Hy]; auto.
Qed.

Lemma min_of_in l : l <> [] -> In (min_of l) l.
Proof. destruct l as [|x l]; [congruence|]. intros _. apply fold_min_in. Qed.

Lemma max_of_in l : l <> [] -> In (max_of l) l.
Proof. destruct l as [|x l]; [congruence|]. intros _. apply fold_max_in. Qed.

Lemma span_nonneg l : 0 <= span l.
Proof.
  unfold span. destruct l as [|x l]; [simpl; lra|].
  assert (Hne : x :: l <> []) by discriminate.
  pose proof (max_of_ge _ _ (min_of_in _ Hne)). lra.
Qed.

(** The minimum and the maximum go through a non-decreasing function. *)
Lemma min_of_map (g : Q -> Q) l :
  l <> [] -> (forall a b, a <= b -> g a <= g b) ->
  min_of (map g l) == g (min_of l).
Proof.
  intros Hne Hg.
  assert (Hne' : map g l <> []) by (destruct l; [congruence|discriminate]).
  apply Qle_antisym.
  - apply min_of_le, in_map, min_of_in, Hne.
  - destruct (proj1 (in_map_iff g l _) (min_of_in _ Hne')) as (a & <- & Ha).
    apply Hg, min_of_le, Ha.
Qed.

Lemma max_of_map (g : Q -> Q) l :
  l <> [] -> (forall a b, a <= b -> g a <= g b) ->
  max_of (map g l) == g (max_of l).
Proof.
  intros Hne Hg.
  assert (Hne' : map g l <> []) by (destruct l; [congruence|discriminate]).
  apply Qle_antisym.
  - destruct (proj1 (in_map_iff g l _) (max_of_in _ Hne')) as (a & <- & Ha).
    apply Hg, max_of_ge, Ha.
  - apply max_of_ge, in_map, max_of_in, Hne.
Qed.

Lemma norm_coord_monotone m scale a b :
  0 < scale -> a <= b -> norm_coord m scale a <= norm_coord m scale b.
Proof.
  intros Hs Hab. unfold norm_coord.
  apply Qle_shift_div_l; [exact Hs|].
  assert (E : (a - m) / scale * scale == a - m) by (field; lra).
  lra.
Qed.

Lemma div_one a c : 0 < c -> a == c -> a / c == 1.
Proof.
  intros Hc E. apply Qle_antisym.
  - apply Qle_shift_div_r; [exact Hc|lra].
  - apply Qle_shift_div_l; [exact Hc|lra].
Qed.

Lemma div_zero a c : a == 0 -> a / c == 0.
Proof. intros E. unfold Qdiv. rewrite E. ring. Qed.

Lemma xs_of_map_norm mx my scale strokes :
  xs_of (map (map (norm_point mx my scale)) strokes)
  = map (norm_coord mx scale) (xs_of strokes).
Proof.
  unfold xs_of. induction strokes as [|s strokes IH]; simpl; [reflexivity|].
  rewrite map_app, IH. f_equal.
  rewrite !map_map. apply map_ext. now intros [x y].
Qed.

Lemma ys_of_map_norm mx my scale strokes :
  ys_of (map (map (norm_point mx my scale)) strokes)
  = map (norm_coord my scale) (ys_of strokes).
Proof.
  unfold ys_of. induction strokes as [|s strokes IH]; simpl; [reflexivity|].
  rewrite map_app, IH. f_equal.
  rewrite !map_map. apply map_ext. now intros [x y].
Qed.

Lemma xs_ys_length strokes : length (xs_of strokes) = length (ys_of strokes).
Proof.
  unfold xs_of, ys_of. induction strokes as [|s strokes IH]; simpl; auto.
  now rewrite !length_app, !length_map, IH.
Qed.

Lemma ys_of_nonempty strokes : xs_of strokes <> [] -> ys_of strokes <> [].
Proof.
  intros H E. apply H. pose proof (xs_ys_length strokes) as L.
  rewrite E in L. destruct (xs_of strokes); [reflexivity|discriminate].
Qed.

(** Without a point the normaliser returns the empty list. *)
Lemma normalize_strokes_no_point strokes :
  xs_of strokes = [] -> normalize_strokes strokes = [].
Proof. unfold normalize_strokes. now intros ->. Qed.

(** With a point, every point is moved by the minima and divided by the
    scale. *)
Lemma normalize_strokes_points strokes :
  xs_of strokes <> [] ->
  normalize_strokes strokes
  = map (map (norm_point (min_of (xs_of strokes)) (min_of (ys_of strokes))
                (scale_of (span (xs_of strokes)) (span (ys_of strokes)))))
        strokes.
Proof.
  intros Hx. pose proof (ys_of_nonempty _ Hx) as Hy.
  unfold normalize_strokes.
  destruct (xs_of strokes) as [|x0 xs] eqn:Ex; [congruence|].
  destruct (ys_of strokes) as [|y0 ys] eqn:Ey; [congruence|].
  reflexivity.
Qed.

(** The scale. *)
Lemma scale_of_zero w h :
  0 <= w -> 0 <= h -> w == 0 /\ h == 0 -> scale_of w h = 1.
Proof.
  intros Hw Hh [Ew Eh]. unfold scale_of.
  destruct (Q.max_spec w h) as [[_ E]|[_ E]];
    (assert (Ez : Qmax w h == 0) by lra);
    apply Qeq_bool_iff in Ez; now rewrite Ez.
Qed.

Lemma scale_of_positive w h :
  0 <= w -> 0 <= h -> 0 < w \/ 0 < h ->
  scale_of w h = Qmax w h /\ 0 < Qmax w h.
Proof.
  intros Hw Hh Hpos. unfold scale_of.
  assert (Hm : 0 < Qmax w h).
  { destruct (Q.max_spec w h) as [[? E]|[? E]]; lra. }
  destruct (Qeq_bool (Qmax w h) 0) eqn:Eb.
  - apply Qeq_bool_iff in Eb. lra.
  - auto.
Qed.

Lemma scale_of_bounds w h :
  0 <= w -> 0 <= h ->
  0 < scale_of w h /\ w <= scale_of w h /\ h <= scale_of w h.
Proof.
  intros Hw Hh.
  destruct (Qlt_le_dec 0 w) as [Hw'|Hw'].
  - destruct (scale_of_positive w h Hw Hh (or_introl Hw')) as [-> Hm].
    pose proof (Q.le_max_l w h). pose proof (Q.le_max_r w h). lra.
  - destruct (Qlt_le_dec 0 h) as [Hh'|Hh'].
    + destruct (scale_of_positive w h Hw Hh (or_intror Hh')) as [-> Hm].
      pose proof (Q.le_max_l w h). pose proof (Q.le_max_r w h). lra.
    + rewrite scale_of_zero; lra.
Qed.

(** After normalisation: the minimum is 0 and the maximum is the extent
    over the scale. *)
Lemma normalized_min_max m scale l :
  l <> [] -> 0 < scale ->
  min_of (map (norm_coord m scale) l) == norm_coord m scale (min_of l)
  /\ max_of (map (norm_coord m scale) l) == norm_coord m scale (max_of l).
Proof.
  intros Hne Hs. split.
  - apply min_of_map; [exact Hne|].
    intros a b. now apply norm_coord_monotone.
  - apply max_of_map; [exact Hne|].
    intros a b. now apply norm_coord_monotone.
Qed.

Lemma normalized_axis scale l :
  l <> [] -> 0 < scale -> span l <= scale ->
  min_of (map (norm_coord (min_of l) scale) l) == 0
  /\ span (map (norm_coord (min_of l) scale) l) == span l / scale
  /\ Forall (fun v => 0 <= v <= 1) (map (norm_coord (min_of l) scale) l).
Proof.
  intros Hne Hs Hle.
  destruct (normalized_min_max (min_of l) scale l Hne Hs) as [Hmin Hmax].
  assert (Hz : norm_coord (min_of l) scale (min_of l) == 0).
  { unfold norm_coord. field. lra. }
  split; [lra|]. split.
  - unfold span at 1. rewrite Hmin, Hmax, Hz. unfold norm_coord, span. lra.
  - apply Forall_forall. intros v (a & <- & Ha)%in_map_iff.
    pose proof (min_of_le _ _ Ha). pose proof (max_of_ge _ _ Ha).
    unfold span in Hle. unfold norm_coord. split.
    + apply Qle_shift_div_l; [exact Hs|lra].
    + apply Qle_shift_div_r; [exact Hs|lra].
Qed.

Lemma Forall2_map_left {A} (R : A -> A -> Prop) (f : A -> A) l :
  (forall a, In a l -> R (f a) a) -> Forall2 R (map f l) l.
Proof.
  induction l as [|a l IH]; intros H; simpl; constructor.
  - apply H. now left.
  - apply IH. intros b Hb. apply H. now right.
Qed.

End NormalizerFacts.

(* ================================================================== *)
(** ** Properties of the normaliser *)

Section NormalizerProperties.

Local Open Scope Q_scope.

(** C3, as the code has it. For strokes with at least one point the
    minimum of the new coordinates is 0 on both axes and every new
    coordinate is in [0,1]. When the points do not all coincide, both axes
    are divided by the same factor, the larger of the width and the height,
    and the longer axis has extent exactly 1. When all the points coincide
    the scale is 1 and both extents are 0. *)
Theorem normalized_bounding_box strokes :
  xs_of strokes <> [] ->
  let out := normalize_strokes strokes in
  let width := span (xs_of strokes) in
  let height := span (ys_of strokes) in
  min_of (xs_of out) == 0 /\ min_of (ys_of out) == 0
  /\ Forall (fun v => 0 <= v <= 1) (xs_of out)
  /\ Forall (fun v => 0 <= v <= 1) (ys_of out)
  /\ (0 < width \/ 0 < height ->
      out = map (map (norm_point (min_of (xs_of strokes))
                        (min_of (ys_of strokes)) (Qmax width height)))
                strokes
      /\ (height <= width -> span (xs_of out) == 1)
      /\ (width <= height -> span (ys_of out) == 1))
  /\ (width == 0 /\ height == 0 ->
      span (xs_of out) == 0 /\ span (ys_of out) == 0).
Proof.
  intros Hx out width height. subst width height.
  pose proof (ys_of_nonempty _ Hx) as Hy.
  pose proof (span_nonneg (xs_of strokes)) as Hw.
  pose proof (span_nonneg (ys_of strokes)) as Hh.
  destruct (scale_of_bounds _ _ Hw Hh) as (Hs & Hws & Hhs).
  assert (Eout : out = map (map (norm_point (min_of (xs_of strokes))
                                   (min_of (ys_of strokes))
                                   (scale_of (span (xs_of strokes))
                                             (span (ys_of strokes)))))
                           strokes)
    by (apply normalize_strokes_points; exact Hx).
  destruct (normalized_axis _ (xs_of strokes) Hx Hs Hws)
    as (Hxmin & Hxspan & Hxall).
  destruct (normalized_axis _ (ys_of strokes) Hy Hs Hhs)
    as (Hymin & Hyspan & Hyall).
  rewrite <- xs_of_map_norm with (my := min_of (ys_of strokes))
    in Hxmin, Hxspan, Hxall.
  rewrite <- ys_of_map_norm with (mx := min_of (xs_of strokes))
    in Hymin, Hyspan, Hyall.
  rewrite <- Eout in *.
  repeat (split; [assumption|]). split.
  - intros Hpos.
    destruct (scale_of_positive _ _ Hw Hh Hpos) as [Es Hm].
    rewrite Es in *. split; [exact Eout|]. split; intros Hle.
    + rewrite Hxspan. apply div_one; [exact Hm|].
      destruct (Q.max_spec (span (xs_of strokes)) (span (ys_of strokes)))
        as [[? E]|[? E]]; lra.
    + rewrite Hyspan. apply div_one; [exact Hm|].
      destruct (Q.max_spec (span (xs_of strokes)) (span (ys_of strokes)))
        as [[? E]|[? E]]; lra.
  - intros Hz. rewrite (scale_of_zero _ _ Hw Hh Hz) in *.
    destruct Hz as [Ew Eh].
    split; [rewrite Hxspan|rewrite Hyspan]; now apply div_zero.
Qed.

(** C5. Normalising the normalised strokes gives the same coordinates. *)
Theorem normalize_strokes_idempotent strokes :
  strokes_eq (normalize_strokes (normalize_strokes strokes))
             (normalize_strokes strokes).
Proof.
  destruct (xs_of strokes) as [|x0 xs] eqn:Ex.
  { rewrite (normalize_strokes_no_point strokes Ex). constructor. }
  assert (Hx : xs_of strokes <> []) by (rewrite Ex; discriminate).
  clear Ex x0 xs.
  pose proof (ys_of_nonempty _ Hx) as Hy.
  pose proof (span_nonneg (xs_of strokes)) as Hw.
  pose proof (span_nonneg (ys_of strokes)) as Hh.
  destruct (scale_of_bounds _ _ Hw Hh) as (Hs & Hws & Hhs).
  set (out := normalize_strokes strokes).
  assert (Eout : out = map (map (norm_point (min_of (xs_of strokes))
                                   (min_of (ys_of strokes))
                                   (scale_of (span (xs_of strokes))
                                             (span (ys_of strokes)))))
                           strokes)
    by (apply normalize_strokes_points; exact Hx).
  destruct (normalized_axis _ (xs_of strokes) Hx Hs Hws)
    as (Hxmin & Hxspan & _).
  destruct (normalized_axis _ (ys_of strokes) Hy Hs Hhs)
    as (Hymin & Hyspan & _).
  rewrite <- xs_of_map_norm with (my := min_of (ys_of strokes))
    in Hxmin, Hxspan.
  rewrite <- ys_of_map_norm with (mx := min_of (xs_of strokes))
    in Hymin, Hyspan.
  rewrite <- Eout in *.
  assert (Hx' : xs_of out <> []).
  { rewrite Eout, xs_of_map_norm. destruct (xs_of strokes);
      [congruence|discriminate]. }
  pose proof (span_nonneg (xs_of out)) as Hw'.
  pose proof (span_nonneg (ys_of out)) as Hh'.
  (* the second scale is 1 *)
  assert (Hone : scale_of (span (xs_of out)) (span (ys_of out)) == 1).
  { destruct (Qlt_le_dec 0 (span (xs_of strokes))) as [Hpw|Hzw];
      [|destruct (Qlt_le_dec 0 (span (ys_of strokes))) as [Hph|Hzh]].
    3:{ rewrite scale_of_zero; [reflexivity|exact Hw'|exact Hh'|].
        assert (Ew : span (xs_of strokes) == 0) by lra.
        assert (Eh : span (ys_of strokes) == 0) by lra.
        split; [rewrite Hxspan|rewrite Hyspan]; now apply div_zero. }
    all: assert (Hpos : 0 < span (xs_of strokes) \/ 0 < span (ys_of strokes))
        by auto;
      destruct (scale_of_positive _ _ Hw Hh Hpos) as [Es Hm];
      rewrite Es in *;
      assert (Hdx : span (xs_of out) <= 1)
        by (rewrite Hxspan; apply Qle_shift_div_r; [exact Hm|lra]);
      assert (Hdy : span (ys_of out) <= 1)
        by (rewrite Hyspan; apply Qle_shift_div_r; [exact Hm|lra]);
      assert (Hd1 : span (xs_of out) == 1 \/ span (ys_of out) == 1)
        by (destruct (Q.max_spec (span (xs_of strokes))
                                 (span (ys_of strokes))) as [[? E]|[? E]];
            [right; rewrite Hyspan|left; rewrite Hxspan];
            apply div_one; lra);
      assert (Hpos' : 0 < span (xs_of out) \/ 0 < span (ys_of out))
        by (destruct Hd1; [left|right]; lra);
      destruct (scale_of_positive _ _ Hw' Hh' Hpos') as [Es' _];
      rewrite Es';
      destruct (Q.max_spec (span (xs_of out)) (span (ys_of out)))
        as [[? E]|[? E]]; destruct Hd1; lra. }
  rewrite (normalize_strokes_points out Hx').
  apply Forall2_map_left. intros stroke _.
  apply Forall2_map_left. intros [x y] _.
  unfold point_eq, norm_point. simpl.
  rewrite Hone, Hxmin, Hymin. split; field.
Qed.

End NormalizerProperties.

(* ================================================================== *)
(** ** Records and their strokes *)

Section Records.

Variable py : interp.

Lemma numbers_have_points strokes :
  strokes <> [] -> Forall (fun s => s <> []) strokes ->
  xs_of (numbers strokes) <> [].
Proof.
  intros Hne Hall. destruct strokes as [|s strokes]; [congruence|].
  inversion Hall as [|? ? Hs _]; subst.
  destruct s as [|p s]; [congruence|]. discriminate.
Qed.

Lemma parse_tdic_strokes content characters r :
  parse_tdic py content = Some (inr characters) ->
  In r characters ->
  strokes r <> [] /\ Forall (fun s => s <> []) (strokes r).
Proof.
  intros Hp Hin.
  destruct (parse_tdic_records py content characters r Hp Hin)
    as (i & N & Hblock & Hne).
  split; [exact Hne|].
  destruct Hblock as (_ & _ & _ & _ & _ & ->).
  apply stroke_loop_nonempty. constructor.
Qed.

(** C6. [parse_tdic] ends, and every record that it returns has a stroke,
    and every stroke has a point; a block whose stroke loop gives no stroke
    adds no record; the normaliser returns the empty list when it gets no
    point, which does not happen to a record of the parser: every record
    that [main] hands on has a stroke and every stroke has a point. *)
Theorem emitted_records_have_strokes content :
  (exists res, parse_tdic py content = Some res)
  /\ (forall characters r,
      parse_tdic py content = Some (inr characters) ->
      In r characters ->
      strokes r <> [] /\ Forall (fun s => s <> []) (strokes r))
  /\ (forall lines i characters N,
        glyph_line (strip (nth i lines [])) = true ->
        i + 1 < length lines ->
        startswith [COLON] (strip (nth (i + 1) lines [])) = true ->
        int py (slice_from 1 (strip (nth (i + 1) lines []))) = inr N ->
        snd (stroke_loop py lines (range N) (i + 2) []) = [] ->
        while_body py lines i characters
        = Next (fst (stroke_loop py lines (range N) (i + 2) [])) characters)
  /\ (forall strokes, xs_of strokes = [] -> normalize_strokes strokes = [])
  /\ (forall characters r,
        main py content = Some (inr characters) ->
        In r characters ->
        strokes r <> [] /\ Forall (fun s => s <> []) (strokes r)).
Proof.
  split; [apply parse_tdic_total|].
  split; [exact (parse_tdic_strokes content)|]. split; [|split].
  - intros lines i characters N Hg Hlt Hn He Hs.
    rewrite (while_body_glyph_block py lines i characters N Hg Hlt Hn He).
    destruct (stroke_loop py lines (range N) (i + 2) []) as [j strokes].
    simpl in Hs. subst strokes. reflexivity.
  - exact normalize_strokes_no_point.
  - intros characters r Hm Hin. unfold main in Hm.
    destruct (parse_tdic py content) as [[e|cs]|] eqn:Hp; try discriminate.
    inversion Hm; subst characters. clear Hm.
    unfold normalize_all in Hin. apply in_map_iff in Hin.
    destruct Hin as (r0 & <- & Hin0). simpl.
    destruct (parse_tdic_strokes content cs r0 Hp Hin0) as [Hne Hall].
    rewrite (normalize_strokes_points _ (numbers_have_points _ Hne Hall)).
    unfold numbers. split.
    + destruct (strokes r0); [congruence|discriminate].
    + rewrite !Forall_map. revert Hall. apply Forall_impl.
      intros s Hs. destruct s; [congruence|discriminate].
Qed.

End Records.

(* ================================================================== *)
(** ** The properties on the worked inputs *)

Section Worked.

Local Open Scope Q_scope.

(** The first example of the format through [main]: one record, whose
    stroke becomes (0,0), (1,0), (1,1). *)
Lemma main_one_block :
  exists r,
    main default_interp one_block = Some (inr [r])
    /\ char r = HIRAGANA_A
    /\ strokes_eqb (strokes r) [[(0, 0); (1, 0); (1, 1)]] = true.
Proof.
  exists {| char := HIRAGANA_A;
            strokes := normalize_strokes
                         (numbers (strokes one_block_record)) |}.
  repeat split; vm_compute; reflexivity.
Qed.

(** A second pass on three strokes changes no coordinate. *)
Lemma normalize_three_strokes_twice :
  strokes_eqb (normalize_strokes (normalize_strokes three_strokes))
              (normalize_strokes three_strokes) = true.
Proof. vm_compute. reflexivity. Qed.

(** C3 as it was stated fails on a character of one point: there is a
    point, and neither extent is 1 after normalisation. *)
Lemma single_point_has_no_unit_extent :
  xs_of single_point <> []
  /\ ~ (span (xs_of (normalize_strokes single_point)) == 1
        \/ span (ys_of (normalize_strokes single_point)) == 1).
Proof.
  split; [discriminate|].
  vm_compute. intros [H|H]; discriminate.
Qed.

(** Three strokes in a box higher than wide: the ordinates span 1. *)
Lemma normalized_bounding_box_witness :
  xs_of three_strokes <> []
  /\ span (xs_of three_strokes) <= span (ys_of three_strokes)
  /\ span (ys_of (normalize_strokes three_strokes)) == 1.
Proof.
  assert (Hx : xs_of three_strokes <> []) by (vm_compute; discriminate).
  assert (Hle : span (xs_of three_strokes) <= span (ys_of three_strokes))
    by (vm_compute; discriminate).
  split; [exact Hx|]. split; [exact Hle|].
  destruct (normalized_bounding_box three_strokes Hx)
    as (_ & _ & _ & _ & Hpos & _).
  apply Hpos; [|exact Hle].
  right. vm_compute. reflexivity.
Defined.

(** The record of the first example: one stroke for a declared count
    of one. *)
Lemma emitted_stroke_count_witness :
  parse_tdic default_interp one_block = Some (inr [one_block_record])
  /\ exists i N,
       block_at default_interp (lines_of one_block) i N one_block_record
       /\ (Z.of_nat (length (strokes one_block_record)) <= N)%Z
       /\ length (strokes one_block_record)
          = length (filter (yields_coords default_interp)
                      (inspected_lines (range N)
                         (skipn (i + 2) (lines_of one_block)))).
Proof.
  assert (Hp : parse_tdic default_interp one_block
               = Some (inr [one_block_record]))
    by (vm_compute; reflexivity).
  split; [exact Hp|].
  apply (proj2 (emitted_stroke_count default_interp one_block)
           [one_block_record] one_block_record Hp).
  simpl. left. reflexivity.
Defined.

(** C4 as it was stated fails on a count of 4301 digits: the remainder
    after the colon is made of the digit 1 only and is an integer literal,
    and the parser raises, by the limit on the digits. *)
Lemma numeric_count_line_raises :
  forallb (between 0x30%N 0x39%N) long_count = true
  /\ (exists z, literal default_interp long_count = Some (z, 4301%N))
  /\ lines_of long_count_block
     = [HIRAGANA_A; COLON :: long_count; u "1 (0 0)"]
  /\ parse_tdic default_interp long_count_block = Some (inl ValueError).
Proof.
  split; [vm_compute; reflexivity|].
  split; [eexists; vm_compute; reflexivity|].
  split; vm_compute; reflexivity.
Qed.

(** A count line [:x] after a glyph line: the parser raises. *)
Lemma parse_raises_only_on_count_line_witness :
  parse_tdic default_interp (join NL bad_count) = Some (inl ValueError).
Proof.
  apply (proj1 (proj2 (proj2 (parse_raises_only_on_count_line
                                default_interp (join NL bad_count)
                                ValueError)))).
  exists 0%nat, []. split; [apply reaches_start|].
  split; [vm_compute; reflexivity|].
  split; [vm_compute; lia|].
  split; vm_compute; reflexivity.
Defined.

(** The record of the first example has strokes with points. *)
Lemma emitted_records_have_strokes_witness :
  strokes one_block_record <> []
  /\ Forall (fun s => s <> []) (strokes one_block_record).
Proof.
  apply (proj1 (proj2 (emitted_records_have_strokes default_interp
                         one_block))
           [one_block_record] one_block_record).
  - vm_compute. reflexivity.
  - simpl. left. reflexivity.
Defined.

(** Two glyph lines in a row: the first iteration ends on the second. *)
Lemma glyph_without_count_line_witness :
  while_body default_interp two_glyphs 0 [] = Next 1 [].
Proof.
  apply (glyph_without_count_line default_interp two_glyphs 0 []).
  - vm_compute. reflexivity.
  - simpl. lia.
  - vm_compute. reflexivity.
Defined.

(** A variant block of three lines before a blank line. *)
Lemma variant_block_skipped_witness :
  exists j,
    while_body default_interp variant_then_block 0 [] = Next j []
    /\ (0 < j <= length variant_then_block)%nat
    /\ (forall k, (0 < k < j)%nat ->
                  nonblank (nth k variant_then_block []) = true)
    /\ (j = length variant_then_block
        \/ ((j < length variant_then_block)%nat
            /\ nonblank (nth j variant_then_block []) = false
            /\ while_body default_interp variant_then_block j []
               = Next (j + 1) [])).
Proof.
  apply (variant_block_skipped default_interp variant_then_block 0 []).
  - simpl. lia.
  - vm_compute. reflexivity.
Defined.

(** A declared count of -2. *)
Lemma nonpositive_stroke_count_witness :
  stroke_loop default_interp negative_count (range (-2)) 2 [] = (2%nat, [])
  /\ while_body default_interp negative_count 0 [] = Next 2 [].
Proof.
  destruct (nonpositive_stroke_count default_interp negative_count 0 []
              (-2)%Z) as (Hs & Hb & _).
  - vm_compute. reflexivity.
  - simpl. lia.
  - vm_compute. reflexivity.
  - vm_compute. reflexivity.
  - lia.
  - split; [exact Hs|exact Hb].
Defined.

(** The block after a variant block gives the only record. *)
Lemma no_marker_glyph_witness :
  parse_tdic default_interp (join NL variant_then_block)
  = Some (inr [after_variant_record])
  /\ startswith [KYU] (char after_variant_record) = false
  /\ startswith [SHIN] (char after_variant_record) = false.
Proof.
  assert (Hp : parse_tdic default_interp (join NL variant_then_block)
               = Some (inr [after_variant_record]))
    by (vm_compute; reflexivity).
  split; [exact Hp|].
  apply (proj1 (proj2 (no_marker_glyph default_interp
                         (join NL variant_then_block)))
           [after_variant_record] after_variant_record Hp).
  simpl. left. reflexivity.
Defined.

End Worked.

(* ================================================================== *)
(** ** Trimming and splitting *)

Section StringFacts.

Lemma lstrip_incl s c : In c (lstrip s) -> In c s.
Proof.
  induction s as [|d s IH]; simpl; [tauto|].
  destruct (isspace d); simpl; auto.
Qed.

Lemma rstrip_incl s c : In c (rstrip s) -> In c s.
Proof.
  revert c. induction s as [|d s IH]; intros c; simpl; [tauto|].
  destruct (rstrip s) as [|e r] eqn:E.
  - destruct (isspace d); simpl; tauto.
  - simpl. intros [H|H]; [auto|]. right. apply IH. exact H.
Qed.

Lemma strip_incl s c : In c (strip s) -> In c s.
Proof. unfold strip. intros H. apply lstrip_incl, rstrip_incl, H. Qed.

Lemma rstrip_idempotent s : rstrip (rstrip s) = rstrip s.
Proof.
  induction s as [|d s IH]; simpl; [reflexivity|].
  destruct (rstrip s) as [|e r] eqn:E.
  - destruct (isspace d) eqn:Hd; simpl; [reflexivity|]. now rewrite Hd.
  - change (rstrip (d :: e :: r)) with
      (match rstrip (e :: r) with
       | [] => if isspace d then [] else [d]
       | r' => d :: r'
       end).
    now rewrite IH.
Qed.

(** A string that does not begin with white space keeps its first code
    point when its end is trimmed. *)
Lemma lstrip_rstrip_head d s :
  isspace d = false -> lstrip (rstrip (d :: s)) = rstrip (d :: s).
Proof.
  intros Hd. simpl. destruct (rstrip s); rewrite ?Hd; simpl; now rewrite Hd.
Qed.

Lemma lstrip_head s :
  lstrip s = [] \/ exists d r, lstrip s = d :: r /\ isspace d = false.
Proof.
  induction s as [|d s IH]; simpl; [now left|].
  destruct (isspace d) eqn:Hd; [exact IH|]. right. eauto.
Qed.

Lemma strip_idempotent s : strip (strip s) = strip s.
Proof.
  unfold strip. destruct (lstrip_head s) as [E|(d & r & E & Hd)]; rewrite E.
  - reflexivity.
  - rewrite (lstrip_rstrip_head d r Hd). apply rstrip_idempotent.
Qed.

Lemma lstrip_whitespace w s : whitespace w = true -> lstrip (w ++ s) = lstrip s.
Proof.
  unfold whitespace. induction w as [|c w IH]; simpl; [reflexivity|].
  intros H. apply andb_prop in H. destruct H as [Hc Hw].
  rewrite Hc. exact (IH Hw).
Qed.

Lemma rstrip_whitespace_nil w : whitespace w = true -> rstrip w = [].
Proof.
  unfold whitespace. induction w as [|c w IH]; simpl; [reflexivity|].
  intros H. apply andb_prop in H. destruct H as [Hc Hw].
  now rewrite (IH Hw), Hc.
Qed.

Lemma rstrip_whitespace s w : whitespace w = true -> rstrip (s ++ w) = rstrip s.
Proof.
  intros Hw. induction s as [|c s IH]; simpl.
  - now apply rstrip_whitespace_nil.
  - now rewrite IH.
Qed.

Lemma lstrip_app s w :
  lstrip s <> [] -> lstrip (s ++ w) = lstrip s ++ w.
Proof.
  induction s as [|c s IH]; simpl; [congruence|].
  destruct (isspace c); [exact IH|reflexivity].
Qed.

Lemma lstrip_nil_whitespace s : lstrip s = [] -> whitespace s = true.
Proof.
  unfold whitespace. induction s as [|c s IH]; simpl; [reflexivity|].
  destruct (isspace c); [exact IH|discriminate].
Qed.

(** White space around a string does not change what [strip] gives. *)
Lemma strip_whitespace w s w' :
  whitespace w = true -> whitespace w' = true ->
  strip (w ++ s ++ w') = strip s.
Proof.
  intros Hw Hw'. unfold strip. rewrite (lstrip_whitespace w _ Hw).
  destruct (lstrip s) as [|d r] eqn:E.
  - pose proof (lstrip_nil_whitespace s E) as Hs.
    rewrite (lstrip_whitespace s w' Hs).
    assert (El : lstrip w' = []).
    { destruct (lstrip_head w') as [H|(d & r & H & Hd)]; [exact H|].
      assert (Hin : In d w') by (apply lstrip_incl; rewrite H; now left).
      unfold whitespace in Hw'. rewrite forallb_forall in Hw'.
      rewrite (Hw' d Hin) in Hd. discriminate. }
    now rewrite El.
  - rewrite lstrip_app by (rewrite E; discriminate).
    rewrite E. apply rstrip_whitespace. exact Hw'.
Qed.

Lemma strip_whitespace_nil s : whitespace s = true -> strip s = [].
Proof.
  intros Hs. rewrite <- (app_nil_r s) at 1.
  change (s ++ []) with (s ++ [] ++ []).
  now rewrite (strip_whitespace s [] [] Hs eq_refl).
Qed.

Lemma split_when_cons sep s :
  exists p ps, split_when sep s = p :: ps.
Proof.
  destruct s as [|c s]; simpl; [eauto|].
  destruct (sep c); [eauto|]. destruct (split_when sep s); eauto.
Qed.

(** No piece holds a separator. *)
Lemma split_when_pieces sep s :
  Forall (fun p => forall c, In c p -> sep c = false) (split_when sep s).
Proof.
  induction s as [|d s IH]; simpl.
  - constructor; [intros c []|constructor].
  - destruct (sep d) eqn:Hd.
    + constructor; [intros c []|exact IH].
    + destruct (split_when sep s) as [|p ps].
      * constructor; [|constructor]. intros c [<-|[]]. exact Hd.
      * inversion IH as [|? ? Hp Hps]; subst. constructor; [|exact Hps].
        intros c [<-|Hc]; [exact Hd|auto].
Qed.

(** Every piece is made of code points of the string. *)
Lemma split_when_incl sep s p c :
  In p (split_when sep s) -> In c p -> In c s.
Proof.
  revert p. induction s as [|d s IH]; intros p; simpl.
  - intros [<-|[]] [].
  - destruct (sep d).
    + intros [<-|Hp]; [intros []|]. intros Hc. right. eauto.
    + destruct (split_when sep s) as [|q qs].
      * intros [<-|[]] [<-|[]]. now left.
      * intros [<-|Hp] Hc.
        -- destruct Hc as [<-|Hc]; [now left|]. right.
           apply (IH q); [now left|exact Hc].
        -- right. apply (IH p); [now right|exact Hc].
Qed.

(** Splitting goes through a separator. *)
Lemma split_when_app sep a c b :
  sep c = true ->
  split_when sep (a ++ c :: b) = split_when sep a ++ split_when sep b.
Proof.
  intros Hc. induction a as [|x a IH]; simpl.
  - now rewrite Hc.
  - destruct (sep x); [now rewrite IH|].
    rewrite IH. destruct (split_when_cons sep a) as (p & ps & ->).
    reflexivity.
Qed.

Lemma contains_false c s : contains c s = false -> ~ In c s.
Proof.
  unfold contains. intros H Hin.
  assert (E : existsb (N.eqb c) s = true).
  { apply existsb_exists. exists c. split; [exact Hin|apply N.eqb_refl]. }
  congruence.
Qed.

Lemma not_in_contains c s : ~ In c s -> contains c s = false.
Proof.
  unfold contains. intros H. destruct (existsb (N.eqb c) s) eqn:E; auto.
  apply existsb_exists in E. destruct E as (d & Hd & Hcd).
  apply N.eqb_eq in Hcd. subst d. contradiction.
Qed.

End StringFacts.

(* ================================================================== *)
(** ** More on stroke lines and on the stroke loop *)

Section StrokeLineFacts.

Variable py : interp.

Lemma coords_loop_acc parts : forall coords,
  coords_loop py parts coords = coords ++ coords_loop py parts [].
Proof.
  induction parts as [|part parts IH]; intros coords; simpl.
  - now rewrite app_nil_r.
  - destruct (contains LPAREN (strip part)); [|apply IH].
    destruct (parse_coord py _) as [[]|xy]; [apply IH|].
    rewrite (IH (coords ++ [xy])), (IH [xy]). now rewrite <- app_assoc.
Qed.

Lemma coords_loop_app parts parts' coords :
  coords_loop py (parts ++ parts') coords
  = coords_loop py parts' (coords_loop py parts coords).
Proof.
  revert coords. induction parts as [|part parts IH]; intros coords; simpl.
  - reflexivity.
  - destruct (contains LPAREN (strip part)); [|apply IH].
    destruct (parse_coord py _) as [[]|xy]; apply IH.
Qed.

Lemma coords_loop_no_paren parts coords :
  Forall (fun part => ~ In LPAREN part) parts ->
  coords_loop py parts coords = coords.
Proof.
  intros H. revert coords.
  induction H as [|part parts Hp _ IH]; intros coords; simpl.
  - reflexivity.
  - rewrite (not_in_contains LPAREN (strip part)); [apply IH|].
    intros Hin. apply Hp. exact (strip_incl _ _ Hin).
Qed.

Lemma inspected_lines_rest n : forall rest,
  length (inspected_lines n rest) <= length rest.
Proof.
  induction n as [|n IH]; intros [|l rest]; simpl; try lia.
  destruct (nonblank l); simpl; [specialize (IH rest)|]; lia.
Qed.

(** When the first [n] lines are not blank the loop reads just these. *)
Lemma inspected_lines_firstn n : forall rest,
  forallb nonblank (firstn n rest) = true ->
  inspected_lines n rest = firstn n rest.
Proof.
  induction n as [|n IH]; intros [|l rest]; simpl; try reflexivity.
  intros H. apply andb_prop in H. destruct H as [Hl Hr].
  rewrite Hl. f_equal. apply IH. exact Hr.
Qed.

Lemma filter_all {A} (f : A -> bool) l :
  forallb f l = true -> filter f l = l.
Proof.
  induction l as [|a l IH]; simpl; [reflexivity|].
  intros H. apply andb_prop in H. destruct H as [Ha Hl].
  now rewrite Ha, (IH Hl).
Qed.

Lemma forallb_yields_nonblank ls :
  forallb (yields_coords py) ls = true -> forallb nonblank ls = true.
Proof.
  rewrite !forallb_forall. intros H l Hl.
  apply (yields_coords_nonblank py), H, Hl.
Qed.

(** The cursor does not pass the end of the lines. *)
Lemma stroke_loop_cursor_bound lines n i strokes :
  i <= length lines ->
  fst (stroke_loop py lines n i strokes) <= length lines.
Proof.
  intros Hi. rewrite stroke_loop_spec. simpl.
  pose proof (filter_length_le nonblank
                (inspected_lines n (skipn i lines))) as H1.
  pose proof (inspected_lines_rest n (skipn i lines)) as H2.
  rewrite length_skipn in H2. lia.
Qed.

(** A stroke costs a line. *)
Lemma stroke_loop_cursor_strokes lines n i :
  snd (stroke_loop py lines n i []) <> [] ->
  i + 1 <= fst (stroke_loop py lines n i []).
Proof.
  rewrite stroke_loop_spec. simpl. intros Hne.
  pose proof (filter_yields_le py (inspected_lines n (skipn i lines))) as H.
  destruct (filter (yields_coords py) (inspected_lines n (skipn i lines)));
    [simpl in Hne; congruence|]. simpl in H. lia.
Qed.

End StrokeLineFacts.

(* ================================================================== *)
(** ** More on the [while] loop *)

Section WhileLoopFacts.

Variable py : interp.

Lemma while_body_cursor_bound lines i characters i' characters' :
  i < length lines ->
  while_body py lines i characters = Next i' characters' ->
  i' <= length lines.
Proof.
  intros Hi H. pose proof (while_body_case py lines i characters) as Hc.
  rewrite H in Hc. clear H.
  inversion Hc as [ | | | | | | N Hg Hlt Hn He Hf]; subst; try lia.
  - pose proof (skip_lines_spec (skipn (i + 1) lines) (i + 1)) as Hs.
    rewrite length_skipn in Hs. lia.
  - assert (Hb : i + 2 <= length lines) by lia.
    pose proof (stroke_loop_cursor_bound py lines (range N) (i + 2) [] Hb)
      as Hj.
    destruct (stroke_loop py lines (range N) (i + 2) []) as [j strokes].
    simpl in Hj. destruct (truthy strokes); inversion Hf; lia.
Qed.

Lemma reaches_cursor_bound lines i characters :
  reaches py lines i characters -> i <= length lines.
Proof.
  induction 1 as [|i cs i' cs' _ IH Hlt Hb]; [lia|].
  exact (while_body_cursor_bound lines i cs i' cs' Hlt Hb).
Qed.

(** An iteration that adds a record goes on at the end of its block. *)
Lemma while_body_emits_end lines i characters i' characters' :
  while_body py lines i characters = Next i' characters' ->
  characters' = characters
  \/ exists N r,
       block_at py lines i N r /\ characters' = characters ++ [r]
       /\ i' = block_end py lines i N /\ i + 3 <= i'.
Proof.
  intros H. pose proof (while_body_case py lines i characters) as Hc.
  rewrite H in Hc. clear H.
  inversion Hc as [ | | | | | | N Hg Hlt Hn He Hf]; subst; auto.
  pose proof (stroke_loop_cursor_strokes py lines (range N) (i + 2)) as Hj.
  unfold block_end.
  destruct (stroke_loop py lines (range N) (i + 2) []) as [j strokes] eqn:Hs.
  destruct (truthy strokes) eqn:Ht; inversion Hf; subst; auto.
  assert (Hne : strokes <> []).
  { intros E. rewrite E in Ht. discriminate. }
  right. exists N. eexists. split; [|split; [reflexivity|split]].
  - unfold block_at. simpl. rewrite Hs. simpl. auto 10.
  - unfold block_end. now rewrite Hs.
  - simpl in Hj. specialize (Hj Hne). lia.
Qed.

Lemma blocks_apart_le lines bs : forall lo hi hi',
  blocks_apart py lines lo bs hi -> hi <= hi' ->
  blocks_apart py lines lo bs hi'.
Proof.
  induction bs as [|[k N] bs IH]; simpl; intros lo hi hi' H Hle; [lia|].
  destruct H as (Hk & He & H). split; [exact Hk|]. split; [exact He|].
  exact (IH _ _ _ H Hle).
Qed.

Lemma blocks_apart_snoc lines bs : forall lo hi k N,
  blocks_apart py lines lo bs hi -> hi <= k ->
  k + 3 <= block_end py lines k N ->
  blocks_apart py lines lo (bs ++ [(k, N)]) (block_end py lines k N).
Proof.
  induction bs as [|[k0 N0] bs IH]; simpl; intros lo hi k N H Hk He.
  - repeat split; lia.
  - destruct H as (H0 & He0 & H). split; [exact H0|]. split; [exact He0|].
    exact (IH _ _ _ _ H Hk He).
Qed.

Lemma blocks_apart_length lines bs : forall lo hi,
  blocks_apart py lines lo bs hi -> lo + 3 * length bs <= hi.
Proof.
  induction bs as [|[k N] bs IH]; simpl; intros lo hi H; [lia|].
  destruct H as (Hk & He & H). specialize (IH _ _ H). lia.
Qed.

(** The records of a reachable state come from blocks that follow one
    another before the cursor, each ended before the next one starts. *)
Lemma reaches_blocks_apart lines i characters :
  reaches py lines i characters ->
  exists bs,
    Forall2 (fun kn r => block_at py lines (fst kn) (snd kn) r) bs characters
    /\ blocks_apart py lines 0 bs i.
Proof.
  induction 1 as [|i cs i' cs' _ IH Hlt Hb].
  - exists []. split; [constructor|simpl; lia].
  - destruct IH as (bs & Hall & Hbl).
    pose proof (while_body_progress py lines i cs i' cs' Hb) as Hp.
    apply while_body_emits_end in Hb.
    destruct Hb as [->|(N & r & Hblock & -> & -> & Hfar)].
    + exists bs. split; [exact Hall|].
      apply (blocks_apart_le lines bs 0 i i' Hbl). lia.
    + exists (bs ++ [(i, N)]). split.
      * apply Forall2_app; [exact Hall|]. constructor; [exact Hblock|constructor].
      * apply (blocks_apart_snoc lines bs 0 i i N Hbl); lia.
Qed.

(** Without a glyph line no state has a record and no iteration raises. *)
Lemma reaches_no_glyph lines i characters :
  forallb no_glyph lines = true ->
  reaches py lines i characters -> characters = [].
Proof.
  intros Hno. rewrite forallb_forall in Hno.
  induction 1 as [|i cs i' cs' _ IH Hlt Hb]; [reflexivity|].
  subst cs. apply while_body_emits in Hb.
  destruct Hb as [->|(N & r & Hblock & _)]; [reflexivity|].
  destruct Hblock as (_ & Hg & _).
  assert (Hin : In (nth i lines []) lines) by (apply nth_In; exact Hlt).
  specialize (Hno _ Hin). unfold no_glyph in Hno.
  rewrite Hg in Hno. discriminate.
Qed.

Lemma nth_map_strip lines i :
  nth i (map strip lines) [] = strip (nth i lines []).
Proof. exact (map_nth strip lines [] i). Qed.

Lemma skip_lines_strip rest : forall i,
  skip_lines (map strip rest) i = skip_lines rest i.
Proof.
  induction rest as [|l rest IH]; intros i; simpl; [reflexivity|].
  rewrite strip_idempotent, IH. reflexivity.
Qed.

Lemma stroke_loop_strip lines n : forall i strokes,
  stroke_loop py (map strip lines) n i strokes
  = stroke_loop py lines n i strokes.
Proof.
  induction n as [|n IH]; intros i strokes; [reflexivity|].
  rewrite !stroke_loop_S, length_map, nth_map_strip, strip_idempotent, !IH.
  reflexivity.
Qed.

Lemma while_body_strip lines i characters :
  while_body py (map strip lines) i characters
  = while_body py lines i characters.
Proof.
  rewrite !while_body_eq.
  rewrite !nth_map_strip, !strip_idempotent, length_map.
  rewrite skipn_map, skip_lines_strip.
  destruct (int py _) as [e|N]; [reflexivity|].
  now rewrite !stroke_loop_strip.
Qed.

End WhileLoopFacts.

(* ================================================================== *)
(** ** Further properties of the parser *)

Section ParserFurther.

Variable py : interp.

(** X1. A text of white space only, the empty text included, parses to the
    empty list. *)
Theorem parse_tdic_whitespace content :
  whitespace content = true -> parse_tdic py content = Some (inr []).
Proof.
  intros H. unfold parse_tdic, lines_of.
  rewrite (strip_whitespace_nil content H). reflexivity.
Qed.

(** X2. White space before and after the text does not change the result
    of the parser. *)
Theorem parse_tdic_surrounding_whitespace w content w' :
  whitespace w = true -> whitespace w' = true ->
  parse_tdic py (w ++ content ++ w') = parse_tdic py content.
Proof.
  intros Hw Hw'. unfold parse_tdic, lines_of.
  now rewrite (strip_whitespace w content w' Hw Hw').
Qed.

(** X3. When no line of the text is a glyph line (every line is blank or
    begins, once trimmed, with the colon or with a variant marker), the
    parser raises nothing and returns the empty list, whatever follows the
    colons. *)
Theorem parse_tdic_no_glyph_line content :
  forallb no_glyph (lines_of content) = true ->
  parse_tdic py content = Some (inr []).
Proof.
  intros Hno. destruct (parse_tdic_total py content) as [[e|out] Hp].
  - exfalso. unfold parse_tdic in Hp.
    apply while_loop_raises in Hp; [|constructor].
    destruct Hp as (j & cs & _ & Hlt & Hb).
    apply while_body_raised in Hb. destruct Hb as (Hg & _).
    rewrite forallb_forall in Hno.
    assert (Hin : In (nth j (lines_of content) []) (lines_of content))
      by (apply nth_In; exact Hlt).
    specialize (Hno _ Hin). unfold no_glyph in Hno.
    rewrite Hg in Hno. discriminate.
  - rewrite Hp. unfold parse_tdic in Hp.
    apply while_loop_returns in Hp; [|constructor].
    destruct Hp as [j Hj].
    now rewrite (reaches_no_glyph py (lines_of content) j out Hno Hj).
Qed.

(** X4. The records are returned in the order of their blocks in the text:
    each record comes from a block, the lines from its glyph line up to the
    line on which the loop goes on after its strokes; these blocks are three
    lines long at least, follow one another in the order of the records and
    do not overlap, the next one starting at the end of the one before or
    later; so there are at most a third as many records as lines. *)
Theorem parse_tdic_blocks_in_order content characters :
  parse_tdic py content = Some (inr characters) ->
  (exists bs,
      Forall2 (fun kn r =>
                 block_at py (lines_of content) (fst kn) (snd kn) r)
              bs characters
      /\ blocks_apart py (lines_of content) 0 bs
                      (length (lines_of content)))
  /\ 3 * length characters <= length (lines_of content).
Proof.
  unfold parse_tdic. intros Hp.
  apply while_loop_returns in Hp; [|constructor].
  destruct Hp as [j Hj].
  pose proof (reaches_cursor_bound py _ _ _ Hj) as Hle.
  destruct (reaches_blocks_apart py _ _ _ Hj) as (bs & Hall & Hbl).
  pose proof (blocks_apart_le py _ bs 0 j _ Hbl Hle) as Hbl'.
  split; [exists bs; split; assumption|].
  pose proof (blocks_apart_length py _ bs 0 _ Hbl') as Hlen.
  rewrite (Forall2_length Hall) in Hlen. lia.
Qed.

(** X5. A block whose stroke lines (the declared number of them, or those
    left before the end of the text) all give a coordinate pair: the record
    has the trimmed glyph line and one stroke for each of these lines, in
    their order, and the cursor goes just past them. *)
Theorem block_of_stroke_lines lines i characters N :
  glyph_line (strip (nth i lines [])) = true ->
  i + 1 < length lines ->
  startswith [COLON] (strip (nth (i + 1) lines [])) = true ->
  int py (slice_from 1 (strip (nth (i + 1) lines []))) = inr N ->
  firstn (range N) (skipn (i + 2) lines) <> [] ->
  forallb (yields_coords py) (firstn (range N) (skipn (i + 2) lines))
  = true ->
  while_body py lines i characters
  = Next (i + 2 + length (firstn (range N) (skipn (i + 2) lines)))
         (characters ++
          [{| char := strip (nth i lines []);
              strokes := map (fun l => parse_stroke_line py (strip l))
                             (firstn (range N) (skipn (i + 2) lines)) |}]).
Proof.
  intros Hg Hlt Hn He Hne Hall.
  rewrite (while_body_glyph_block py lines i characters N Hg Hlt Hn He).
  rewrite stroke_loop_spec.
  pose proof (forallb_yields_nonblank py _ Hall) as Hnb.
  rewrite (inspected_lines_firstn _ _ Hnb).
  rewrite (filter_all _ _ Hall), (filter_all _ _ Hnb). simpl app.
  destruct (firstn (range N) (skipn (i + 2) lines)) as [|l ls];
    [congruence|reflexivity].
Qed.

(** X6. White space at the ends of the lines is of no account: the loop
    does the same on the lines and on the trimmed lines. *)
Theorem while_loop_trimmed_lines fuel lines : forall i characters,
  while_loop py fuel (map strip lines) i characters
  = while_loop py fuel lines i characters.
Proof.
  induction fuel as [|fuel IH]; intros i characters; [reflexivity|].
  rewrite !while_loop_S, length_map, while_body_strip.
  destruct (length lines <=? i); [reflexivity|].
  destruct (while_body py lines i characters); auto.
Qed.

(** X7. The glyph of every record that the parser returns is not empty,
    has no white space at either end, holds no newline and does not begin
    with the colon. *)
Theorem returned_glyphs content characters r :
  parse_tdic py content = Some (inr characters) ->
  In r characters ->
  char r <> []
  /\ strip (char r) = char r
  /\ ~ In NL (char r)
  /\ startswith [COLON] (char r) = false.
Proof.
  intros Hp Hin.
  destruct (parse_tdic_records py content characters r Hp Hin)
    as (i & N & Hblock & _).
  destruct Hblock as (Hlt & Hg & Hc & _).
  apply glyph_line_inv in Hg. destruct Hg as (Ht & _ & Hcolon).
  rewrite Hc. split; [|split; [|split]].
  - intros E. rewrite E in Ht. discriminate.
  - apply strip_idempotent.
  - intros Hnl. apply strip_incl in Hnl.
    assert (Hl : In (nth i (lines_of content) []) (lines_of content))
      by (apply nth_In; lia).
    pose proof (split_when_pieces (N.eqb NL) (strip content)) as Hp'.
    rewrite Forall_forall in Hp'. specialize (Hp' _ Hl NL Hnl).
    rewrite N.eqb_refl in Hp'. discriminate.
  - exact Hcolon.
Qed.

(** X8. The groups of a stroke line are read one after the other: the
    points of a line cut after a closing parenthesis are the points of the
    first part followed by the points of the second. *)
Theorem parse_stroke_line_groups a b :
  parse_stroke_line py (a ++ RPAREN :: b)
  = parse_stroke_line py a ++ parse_stroke_line py b.
Proof.
  unfold parse_stroke_line, split.
  rewrite (split_when_app (N.eqb RPAREN) a RPAREN b (N.eqb_refl RPAREN)).
  rewrite coords_loop_app. apply coords_loop_acc.
Qed.

(** X9. A line without an opening parenthesis gives no point. *)
Theorem parse_stroke_line_no_paren line :
  contains LPAREN line = false -> parse_stroke_line py line = [].
Proof.
  intros H. apply contains_false in H. unfold parse_stroke_line.
  apply coords_loop_no_paren. apply Forall_forall.
  intros part Hpart Hin. apply H.
  exact (split_when_incl (N.eqb RPAREN) line part LPAREN Hpart Hin).
Qed.

End ParserFurther.

(* ================================================================== *)
(** ** The statistics *)

Section StatisticsFacts.

Local Open Scope N_scope.

Lemma str_le_nil_r (s : str) : str_le s [] = true <-> s = [].
Proof. destruct s; simpl; split; congruence. Qed.

Lemma in_block_first {P} lo hi (c : character P) :
  in_block lo hi c = true <->
  exists x r, char c = x :: r /\ lo <= x /\ (x < hi \/ (x = hi /\ r = [])).
Proof.
  unfold in_block. destruct (char c) as [|x r]; simpl.
  - split; [discriminate|]. intros (x & r & E & _). discriminate.
  - split.
    + intros H. apply andb_prop in H. destruct H as [Hlo Hhi].
      exists x, r. split; [reflexivity|]. split.
      * destruct (N.ltb_spec lo x); [lia|].
        destruct (N.eqb_spec lo x); [lia|discriminate].
      * destruct (N.ltb_spec x hi); [now left|].
        destruct (N.eqb_spec x hi); [|discriminate].
        right. split; [assumption|]. now apply str_le_nil_r.
    + intros (x' & r' & E & Hlo & Hhi). inversion E; subst x' r'.
      apply andb_true_intro. split.
      * destruct (N.ltb_spec lo x); [reflexivity|].
        destruct (N.eqb_spec lo x); [reflexivity|lia].
      * destruct Hhi as [Hlt|[-> ->]].
        -- apply N.ltb_lt in Hlt. now rewrite Hlt.
        -- now rewrite N.ltb_irrefl, N.eqb_refl.
Qed.

(** Two ranges one below the other have no record in common. *)
Lemma in_block_disjoint {P} lo hi lo' hi' (c : character P) :
  hi < lo' -> in_block lo hi c = true -> in_block lo' hi' c = false.
Proof.
  intros Hlt H. destruct (in_block lo' hi' c) eqn:H'; [|reflexivity].
  apply in_block_first in H. apply in_block_first in H'.
  destruct H as (x & r & E & Hlo & Hhi).
  destruct H' as (x' & r' & E' & Hlo' & _).
  rewrite E in E'. inversion E'; subst. lia.
Qed.

End StatisticsFacts.

Section StatisticsProperties.

(** X10. A record counts as hiragana exactly when its glyph begins with a
    code point from U+3040 to U+309E, whatever follows, or is the single
    code point U+309F; no record counts for two of the three ranges. *)
Theorem hiragana_by_first_code_point {P} (characters : list (character P))
    (c : character P) :
  (In c (hiragana characters) <->
   In c characters
   /\ exists x r, char c = x :: r
                  /\ (0x3040 <= x)%N
                  /\ ((x < 0x309F)%N \/ (x = 0x309F%N /\ r = [])))
  /\ ~ (In c (hiragana characters) /\ In c (katakana characters))
  /\ ~ (In c (hiragana characters) /\ In c (kanji characters))
  /\ ~ (In c (katakana characters) /\ In c (kanji characters)).
Proof.
  unfold hiragana, katakana, kanji. rewrite !filter_In.
  split; [|split; [|split]].
  - now rewrite in_block_first.
  - intros [[_ H] [_ H']].
    rewrite (in_block_disjoint 0x3040%N 0x309F%N 0x30A0%N 0x30FF%N c eq_refl H) in H'.
    discriminate.
  - intros [[_ H] [_ H']].
    rewrite (in_block_disjoint 0x3040%N 0x309F%N 0x4E00%N 0x9FAF%N c
               eq_refl H) in H'.
    discriminate.
  - intros [[_ H] [_ H']].
    rewrite (in_block_disjoint 0x30A0%N 0x30FF%N 0x4E00%N 0x9FAF%N c
               eq_refl H) in H'.
    discriminate.
Qed.

(** X11. The four numbers of the statistics add up to the number of
    records: the number printed for the others is the number of records in
    none of the three ranges, and is never negative. *)
Theorem statistics_partition {P} (characters : list (character P)) :
  others characters = Z.of_nat (length (filter unclassified characters))
  /\ (0 <= others characters)%Z
  /\ length characters
     = length (hiragana characters) + length (katakana characters)
       + length (kanji characters)
       + length (filter unclassified characters).
Proof.
  assert (H : length characters
              = length (hiragana characters) + length (katakana characters)
                + length (kanji characters)
                + length (filter unclassified characters)).
  { unfold hiragana, katakana, kanji.
    induction characters as [|c cs IH]; [reflexivity|].
    simpl. unfold unclassified at 1.
    destruct (in_block 0x3040%N 0x309F%N c) eqn:H1.
    - rewrite (in_block_disjoint 0x3040%N 0x309F%N 0x30A0%N 0x30FF%N c
                 eq_refl H1).
      rewrite (in_block_disjoint 0x3040%N 0x309F%N 0x4E00%N 0x9FAF%N c
                 eq_refl H1).
      simpl. lia.
    - destruct (in_block 0x30A0%N 0x30FF%N c) eqn:H2.
      + rewrite (in_block_disjoint 0x30A0%N 0x30FF%N 0x4E00%N 0x9FAF%N c
                   eq_refl H2).
        simpl. lia.
      + destruct (in_block 0x4E00%N 0x9FAF%N c); simpl; lia. }
  unfold others. lia.
Qed.

End StatisticsProperties.

(* ================================================================== *)
(** ** More on the normaliser *)

Section NormalizerMore.

Local Open Scope Q_scope.

Lemma Forall2_map_both {A B} (R : B -> B -> Prop) (f g : A -> B) l :
  (forall a, In a l -> R (f a) (g a)) -> Forall2 R (map f l) (map g l).
Proof.
  induction l as [|a l IH]; intros H; simpl; constructor.
  - apply H. now left.
  - apply IH. intros b Hb. apply H. now right.
Qed.

Lemma in_xs_of strokes stroke p :
  In stroke strokes -> In p stroke -> In (fst p) (xs_of strokes).
Proof.
  intros Hs Hp. unfold xs_of. apply in_flat_map.
  exists stroke. split; [exact Hs|]. now apply in_map.
Qed.

Lemma in_ys_of strokes stroke p :
  In stroke strokes -> In p stroke -> In (snd p) (ys_of strokes).
Proof.
  intros Hs Hp. unfold ys_of. apply in_flat_map.
  exists stroke. split; [exact Hs|]. now apply in_map.
Qed.

Lemma xs_of_map_pair (f g : Q -> Q) strokes :
  xs_of (map (map (fun p : Q * Q => (f (fst p), g (snd p)))) strokes)
  = map f (xs_of strokes).
Proof.
  unfold xs_of. induction strokes as [|s strokes IH]; simpl; [reflexivity|].
  rewrite map_app, IH. f_equal. rewrite !map_map. reflexivity.
Qed.

Lemma ys_of_map_pair (f g : Q -> Q) strokes :
  ys_of (map (map (fun p : Q * Q => (f (fst p), g (snd p)))) strokes)
  = map g (ys_of strokes).
Proof.
  unfold ys_of. induction strokes as [|s strokes IH]; simpl; [reflexivity|].
  rewrite map_app, IH. f_equal. rewrite !map_map. reflexivity.
Qed.

Lemma map_nonempty {A B} (f : A -> B) l : l <> [] -> map f l <> [].
Proof. destruct l; [congruence|discriminate]. Qed.

(** The extent of a list moved by [d], and of a list magnified by [k]. *)
Lemma min_max_shift d l :
  l <> [] ->
  min_of (map (fun v => v + d) l) == min_of l + d
  /\ max_of (map (fun v => v + d) l) == max_of l + d.
Proof.
  intros Hne. split.
  - apply (min_of_map (fun v => v + d) l Hne). intros a b Hab. lra.
  - apply (max_of_map (fun v => v + d) l Hne). intros a b Hab. lra.
Qed.

Lemma min_max_magnify k l :
  l <> [] -> 0 < k ->
  min_of (map (fun v => k * v) l) == k * min_of l
  /\ max_of (map (fun v => k * v) l) == k * max_of l.
Proof.
  intros Hne Hk.
  assert (Hmono : forall a b, a <= b -> k * a <= k * b).
  { intros a b Hab. rewrite (Qmult_comm k a), (Qmult_comm k b).
    apply Qmult_le_compat_r; lra. }
  split.
  - exact (min_of_map (fun v => k * v) l Hne Hmono).
  - exact (max_of_map (fun v => k * v) l Hne Hmono).
Qed.

(** The scale of equal extents, and of magnified extents. *)
Lemma Qmax_eq w h w' h' : w == w' -> h == h' -> Qmax w h == Qmax w' h'.
Proof.
  intros Ew Eh.
  destruct (Q.max_spec w h) as [[? E]|[? E]];
    destruct (Q.max_spec w' h') as [[? E']|[? E']]; lra.
Qed.

Lemma scale_of_eq w h w' h' :
  0 <= w -> 0 <= h -> w == w' -> h == h' ->
  scale_of w h == scale_of w' h'.
Proof.
  intros Hw Hh Ew Eh.
  assert (Hw' : 0 <= w') by lra. assert (Hh' : 0 <= h') by lra.
  destruct (Qlt_le_dec 0 w) as [Hpw|Hzw];
    [|destruct (Qlt_le_dec 0 h) as [Hph|Hzh]].
  3:{ rewrite !scale_of_zero; try reflexivity; try assumption;
        split; lra. }
  all: assert (Hpos : 0 < w \/ 0 < h) by auto;
    assert (Hpos' : 0 < w' \/ 0 < h') by (destruct Hpos; [left|right]; lra);
    destruct (scale_of_positive w h Hw Hh Hpos) as [-> _];
    destruct (scale_of_positive w' h' Hw' Hh' Hpos') as [-> _];
    now apply Qmax_eq.
Qed.

Lemma Qmax_magnify k w h : 0 < k -> Qmax (k * w) (k * h) == k * Qmax w h.
Proof.
  intros Hk.
  assert (Hmono : forall a b, a <= b -> k * a <= k * b).
  { intros a b Hab. rewrite (Qmult_comm k a), (Qmult_comm k b).
    apply Qmult_le_compat_r; lra. }
  destruct (Q.max_spec w h) as [[Hlt E]|[Hle E]];
    destruct (Q.max_spec (k * w) (k * h)) as [[Hlt' E']|[Hle' E']];
    rewrite E, E'; try reflexivity.
  - apply Qle_antisym; [apply Hmono; lra|exact Hle'].
  - apply Qle_antisym; [apply Hmono; exact Hle|lra].
Qed.

(** The extents are both 0, and both scales are 1; or the scale is
    magnified as the extents are. *)
Lemma scale_of_magnify k w h w' h' :
  0 <= w -> 0 <= h -> 0 < k -> w' == k * w -> h' == k * h ->
  (w == 0 /\ h == 0 /\ scale_of w h = 1 /\ scale_of w' h' = 1)
  \/ (0 < scale_of w h /\ scale_of w' h' == k * scale_of w h).
Proof.
  intros Hw Hh Hk Ew Eh.
  assert (Hkw : 0 <= k * w) by (apply Qmult_le_0_compat; lra).
  assert (Hkh : 0 <= k * h) by (apply Qmult_le_0_compat; lra).
  assert (Hw' : 0 <= w') by lra. assert (Hh' : 0 <= h') by lra.
  destruct (Qlt_le_dec 0 w) as [Hpw|Hzw];
    [|destruct (Qlt_le_dec 0 h) as [Hph|Hzh]].
  3:{ left. assert (Ez : w == 0) by lra. assert (Ez' : h == 0) by lra.
      repeat split; try assumption.
      - apply scale_of_zero; auto.
      - apply scale_of_zero; try assumption.
        rewrite Ew, Eh, Ez, Ez'. split; ring. }
  all: right;
    assert (Hpos : 0 < w \/ 0 < h) by auto;
    destruct (scale_of_positive w h Hw Hh Hpos) as [Es Hm];
    rewrite Es; split; [exact Hm|];
    rewrite (scale_of_eq w' h' (k * w) (k * h) Hw' Hh' Ew Eh);
    assert (Hpos' : 0 < k * w \/ 0 < k * h)
      by (destruct Hpos as [H|H]; [left|right];
          apply Qmult_lt_0_compat; assumption);
    destruct (scale_of_positive _ _ Hkw Hkh Hpos') as [-> _];
    now apply Qmax_magnify.
Qed.

Lemma span_zero_all l v : span l == 0 -> In v l -> v == min_of l.
Proof.
  unfold span. intros Hz Hv.
  pose proof (min_of_le l v Hv). pose proof (max_of_ge l v Hv). lra.
Qed.

End NormalizerMore.

(* ================================================================== *)
(** ** Further properties of the normaliser and of [main] *)

Section NormalizerFurther.

Local Open Scope Q_scope.

(** X12. With a point among them, the normalised strokes are as many as
    the strokes, and each has as many points as the stroke it comes from:
    a stroke without a point stays, as a stroke without a point. *)
Theorem normalize_strokes_shape strokes :
  xs_of strokes <> [] ->
  map (@length (Q * Q)) (normalize_strokes strokes)
  = map (@length (Q * Q)) strokes.
Proof.
  intros Hx. rewrite (normalize_strokes_points strokes Hx).
  rewrite map_map. apply map_ext. intros stroke. apply length_map.
Qed.

(** X13. Moving all the points by the same vector does not change the
    normalised strokes. *)
Theorem normalize_strokes_translate dx dy strokes :
  strokes_eq (normalize_strokes (translate dx dy strokes))
             (normalize_strokes strokes).
Proof.
  assert (Ex : xs_of (translate dx dy strokes)
               = map (fun v => v + dx) (xs_of strokes))
    by exact (xs_of_map_pair (fun v => v + dx) (fun v => v + dy) strokes).
  assert (Ey : ys_of (translate dx dy strokes)
               = map (fun v => v + dy) (ys_of strokes))
    by exact (ys_of_map_pair (fun v => v + dx) (fun v => v + dy) strokes).
  destruct (xs_of strokes) as [|x0 xs] eqn:E0.
  { rewrite (normalize_strokes_no_point strokes E0).
    rewrite (normalize_strokes_no_point (translate dx dy strokes) Ex).
    constructor. }
  assert (Hx : xs_of strokes <> []) by (rewrite E0; discriminate).
  rewrite <- E0 in Ex. clear E0 x0 xs.
  pose proof (ys_of_nonempty _ Hx) as Hy.
  assert (Hx' : xs_of (translate dx dy strokes) <> [])
    by (rewrite Ex; now apply map_nonempty).
  rewrite (normalize_strokes_points _ Hx'), (normalize_strokes_points _ Hx).
  rewrite Ex, Ey.
  destruct (min_max_shift dx (xs_of strokes) Hx) as [Exmin Exmax].
  destruct (min_max_shift dy (ys_of strokes) Hy) as [Eymin Eymax].
  pose proof (span_nonneg (map (fun v => v + dx) (xs_of strokes))) as Hw'.
  pose proof (span_nonneg (map (fun v => v + dy) (ys_of strokes))) as Hh'.
  pose proof (span_nonneg (xs_of strokes)) as Hw.
  pose proof (span_nonneg (ys_of strokes)) as Hh.
  assert (Ew : span (map (fun v => v + dx) (xs_of strokes))
               == span (xs_of strokes))
    by (unfold span; lra).
  assert (Eh : span (map (fun v => v + dy) (ys_of strokes))
               == span (ys_of strokes))
    by (unfold span; lra).
  pose proof (scale_of_eq _ _ _ _ Hw' Hh' Ew Eh) as Es.
  destruct (scale_of_bounds _ _ Hw Hh) as (Hs & _).
  remember (scale_of (span (map (fun v => v + dx) (xs_of strokes)))
                     (span (map (fun v => v + dy) (ys_of strokes)))) as sc'.
  remember (scale_of (span (xs_of strokes)) (span (ys_of strokes))) as sc.
  remember (min_of (map (fun v => v + dx) (xs_of strokes))) as mx'.
  remember (min_of (map (fun v => v + dy) (ys_of strokes))) as my'.
  unfold translate. rewrite map_map.
  apply Forall2_map_both. intros stroke _. rewrite map_map.
  apply Forall2_map_both. intros [x y] _.
  unfold point_eq, norm_point. simpl.
  rewrite Exmin, Eymin, Es. split; field; lra.
Qed.

(** X14. Magnifying all the coordinates by the same positive factor does
    not change the normalised strokes. *)
Theorem normalize_strokes_magnify k strokes :
  0 < k ->
  strokes_eq (normalize_strokes (magnify k strokes))
             (normalize_strokes strokes).
Proof.
  intros Hk.
  assert (Ex : xs_of (magnify k strokes)
               = map (fun v => k * v) (xs_of strokes))
    by exact (xs_of_map_pair (fun v => k * v) (fun v => k * v) strokes).
  assert (Ey : ys_of (magnify k strokes)
               = map (fun v => k * v) (ys_of strokes))
    by exact (ys_of_map_pair (fun v => k * v) (fun v => k * v) strokes).
  destruct (xs_of strokes) as [|x0 xs] eqn:E0.
  { rewrite (normalize_strokes_no_point strokes E0).
    rewrite (normalize_strokes_no_point (magnify k strokes) Ex).
    constructor. }
  assert (Hx : xs_of strokes <> []) by (rewrite E0; discriminate).
  rewrite <- E0 in Ex. clear E0 x0 xs.
  pose proof (ys_of_nonempty _ Hx) as Hy.
  assert (Hx' : xs_of (magnify k strokes) <> [])
    by (rewrite Ex; now apply map_nonempty).
  rewrite (normalize_strokes_points _ Hx'), (normalize_strokes_points _ Hx).
  rewrite Ex, Ey.
  destruct (min_max_magnify k (xs_of strokes) Hx Hk) as [Exmin Exmax].
  destruct (min_max_magnify k (ys_of strokes) Hy Hk) as [Eymin Eymax].
  pose proof (span_nonneg (xs_of strokes)) as Hw.
  pose proof (span_nonneg (ys_of strokes)) as Hh.
  assert (Ew : span (map (fun v => k * v) (xs_of strokes))
               == k * span (xs_of strokes))
    by (unfold span; rewrite Exmin, Exmax; ring).
  assert (Eh : span (map (fun v => k * v) (ys_of strokes))
               == k * span (ys_of strokes))
    by (unfold span; rewrite Eymin, Eymax; ring).
  pose proof (scale_of_magnify k _ _ _ _ Hw Hh Hk Ew Eh) as Hsc.
  pose proof (span_zero_all (xs_of strokes)) as Hzx.
  pose proof (span_zero_all (ys_of strokes)) as Hzy.
  remember (scale_of (span (map (fun v => k * v) (xs_of strokes)))
                     (span (map (fun v => k * v) (ys_of strokes)))) as sc'.
  remember (scale_of (span (xs_of strokes)) (span (ys_of strokes))) as sc.
  remember (min_of (map (fun v => k * v) (xs_of strokes))) as mx'.
  remember (min_of (map (fun v => k * v) (ys_of strokes))) as my'.
  unfold magnify. rewrite map_map.
  apply Forall2_map_both. intros stroke Hstroke. rewrite map_map.
  apply Forall2_map_both. intros [x y] Hp.
  unfold point_eq, norm_point. simpl.
  rewrite Exmin, Eymin.
  destruct Hsc as [(Zw & Zh & -> & ->)|(Hs & ->)].
  - pose proof (Hzx x Zw (in_xs_of strokes stroke (x, y) Hstroke Hp)) as Ex0.
    pose proof (Hzy y Zh (in_ys_of strokes stroke (x, y) Hstroke Hp)) as Ey0.
    simpl in Ex0, Ey0. rewrite Ex0, Ey0. split; field.
  - split; field; lra.
Qed.

(** X15. When all the points are at the same place (a single point, for
    one), every normalised point is (0,0). *)
Theorem normalize_strokes_coincident p0 strokes :
  Forall (Forall (fun p => point_eq p p0)) strokes ->
  Forall (Forall (fun p => point_eq p (0, 0))) (normalize_strokes strokes).
Proof.
  intros Hall.
  destruct (xs_of strokes) as [|x0 xs] eqn:E0.
  { rewrite (normalize_strokes_no_point strokes E0). constructor. }
  assert (Hx : xs_of strokes <> []) by (rewrite E0; discriminate).
  clear E0 x0 xs. pose proof (ys_of_nonempty _ Hx) as Hy.
  assert (Hxs : forall v, In v (xs_of strokes) -> v == fst p0).
  { intros v Hv. unfold xs_of in Hv. apply in_flat_map in Hv.
    destruct Hv as (stroke & Hs & Hv). apply in_map_iff in Hv.
    destruct Hv as (p & <- & Hp). rewrite Forall_forall in Hall.
    specialize (Hall _ Hs). rewrite Forall_forall in Hall.
    exact (proj1 (Hall _ Hp)). }
  assert (Hys : forall v, In v (ys_of strokes) -> v == snd p0).
  { intros v Hv. unfold ys_of in Hv. apply in_flat_map in Hv.
    destruct Hv as (stroke & Hs & Hv). apply in_map_iff in Hv.
    destruct Hv as (p & <- & Hp). rewrite Forall_forall in Hall.
    specialize (Hall _ Hs). rewrite Forall_forall in Hall.
    exact (proj2 (Hall _ Hp)). }
  pose proof (Hxs _ (min_of_in _ Hx)) as Exmin.
  pose proof (Hxs _ (max_of_in _ Hx)) as Exmax.
  pose proof (Hys _ (min_of_in _ Hy)) as Eymin.
  pose proof (Hys _ (max_of_in _ Hy)) as Eymax.
  assert (Hz : span (xs_of strokes) == 0 /\ span (ys_of strokes) == 0)
    by (unfold span; split; lra).
  rewrite (normalize_strokes_points strokes Hx).
  rewrite (scale_of_zero _ _ (span_nonneg _) (span_nonneg _) Hz).
  apply Forall_map. apply Forall_forall. intros stroke Hstroke.
  apply Forall_map. apply Forall_forall. intros [x y] Hp.
  pose proof (Hxs _ (in_xs_of strokes stroke (x, y) Hstroke Hp)) as Ex0.
  pose proof (Hys _ (in_ys_of strokes stroke (x, y) Hstroke Hp)) as Ey0.
  simpl in Ex0, Ey0.
  unfold point_eq, norm_point. simpl.
  rewrite Ex0, Ey0, Exmin, Eymin. split; field.
Qed.

End NormalizerFurther.

Section MainProperties.

Variable py : interp.

Local Open Scope Q_scope.

(** X16. When [main] gets a list from the parser, it hands on as many
    records, with the same glyphs in the same order, and each record has
    as many strokes, of as many points each, as the parser gave it. *)
Theorem main_keeps_glyphs_and_shape content out :
  main py content = Some (inr out) ->
  exists characters,
    parse_tdic py content = Some (inr characters)
    /\ map char out = map char characters
    /\ map (fun r => map (@length (Q * Q)) (strokes r)) out
       = map (fun r => map (@length (Z * Z)) (strokes r)) characters.
Proof.
  unfold main. intros Hm.
  destruct (parse_tdic py content) as [[e|cs]|] eqn:Hp; try discriminate.
  inversion Hm; subst out. clear Hm.
  exists cs. split; [reflexivity|]. unfold normalize_all. split.
  - rewrite map_map. reflexivity.
  - rewrite map_map. apply map_ext_in. intros r Hin. simpl.
    destruct (parse_tdic_strokes py content cs r Hp Hin) as [Hne Hall].
    rewrite (normalize_strokes_points _ (numbers_have_points _ Hne Hall)).
    unfold numbers. rewrite !map_map. apply map_ext. intros stroke.
    now rewrite !length_map.
Qed.

(** X17. Every coordinate that [main] hands on is between 0 and 1, and in
    every record the smallest abscissa and the smallest ordinate are 0. *)
Theorem main_unit_square content out r :
  main py content = Some (inr out) ->
  In r out ->
  Forall (fun v => 0 <= v <= 1) (coordinates r)
  /\ min_of (xs_of (strokes r)) == 0
  /\ min_of (ys_of (strokes r)) == 0.
Proof.
  unfold main. intros Hm Hin.
  destruct (parse_tdic py content) as [[e|cs]|] eqn:Hp; try discriminate.
  inversion Hm; subst out. clear Hm.
  unfold normalize_all in Hin. apply in_map_iff in Hin.
  destruct Hin as (r0 & <- & Hin0). unfold coordinates. simpl.
  destruct (parse_tdic_strokes py content cs r0 Hp Hin0) as [Hne Hall].
  pose proof (numbers_have_points _ Hne Hall) as Hx.
  pose proof (ys_of_nonempty _ Hx) as Hy.
  rewrite (normalize_strokes_points _ Hx).
  rewrite xs_of_map_norm, ys_of_map_norm.
  destruct (scale_of_bounds _ _ (span_nonneg (xs_of (numbers (strokes r0))))
              (span_nonneg (ys_of (numbers (strokes r0)))))
    as (Hs & Hws & Hhs).
  destruct (normalized_axis _ _ Hx Hs Hws) as (Hxmin & _ & Hxall).
  destruct (normalized_axis _ _ Hy Hs Hhs) as (Hymin & _ & Hyall).
  split; [|split; assumption].
  apply Forall_app. split; assumption.
Qed.

End MainProperties.

(* ================================================================== *)
(** ** The further properties on worked inputs *)

Section FurtherWorked.

Local Open Scope Q_scope.

(** Three spaces. *)
Lemma parse_tdic_whitespace_witness :
  parse_tdic default_interp (u "   ") = Some (inr []).
Proof.
  apply (parse_tdic_whitespace default_interp (u "   ")).
  vm_compute. reflexivity.
Defined.

(** The first example between spaces and newlines. *)
Lemma parse_tdic_surrounding_whitespace_witness :
  parse_tdic default_interp (u "  " ++ one_block ++ [NL; NL])
  = parse_tdic default_interp one_block.
Proof.
  apply (parse_tdic_surrounding_whitespace default_interp
           (u "  ") one_block [NL; NL]); vm_compute; reflexivity.
Defined.

(** Count lines without a glyph line, one of them with no number. *)
Lemma parse_tdic_no_glyph_line_witness :
  parse_tdic default_interp (join NL no_glyph_input) = Some (inr []).
Proof.
  apply (parse_tdic_no_glyph_line default_interp (join NL no_glyph_input)).
  vm_compute. reflexivity.
Defined.

(** Two blocks with an empty line between them: the first goes from line
    0 to line 3, the second from line 4 to line 7. *)
Lemma parse_tdic_blocks_in_order_witness :
  (exists bs,
      Forall2 (fun kn r =>
                 block_at default_interp
                   (lines_of (join NL (first_lines ++ [] :: second_lines)))
                   (fst kn) (snd kn) r)
              bs
              [{| char := HIRAGANA_A; strokes := [[(0, 0); (4, 4)]]%Z |};
               after_variant_record]
      /\ blocks_apart default_interp
           (lines_of (join NL (first_lines ++ [] :: second_lines))) 0 bs
           (length (lines_of (join NL (first_lines ++ [] :: second_lines)))))
  /\ (3 * 2 <= length (lines_of (join NL (first_lines ++ [] :: second_lines))))%nat.
Proof.
  apply (parse_tdic_blocks_in_order default_interp
           (join NL (first_lines ++ [] :: second_lines))
           [{| char := HIRAGANA_A; strokes := [[(0, 0); (4, 4)]]%Z |};
            after_variant_record]).
  vm_compute. reflexivity.
Defined.

(** Five strokes declared, two lines before the end of the text. *)
Lemma block_of_stroke_lines_witness :
  while_body default_interp truncated_block 0 []
  = Next 4 [{| char := HIRAGANA_A;
               strokes := [[(1, 2); (3, 4)]; [(5, 6)]]%Z |}].
Proof.
  apply (block_of_stroke_lines default_interp truncated_block 0 [] 5%Z).
  - vm_compute. reflexivity.
  - simpl. lia.
  - vm_compute. reflexivity.
  - vm_compute. reflexivity.
  - vm_compute. discriminate.
  - vm_compute. reflexivity.
Defined.

(** The glyph of the first example. *)
Lemma returned_glyphs_witness :
  char one_block_record <> []
  /\ strip (char one_block_record) = char one_block_record
  /\ ~ In NL (char one_block_record)
  /\ startswith [COLON] (char one_block_record) = false.
Proof.
  apply (returned_glyphs default_interp one_block [one_block_record]).
  - vm_compute. reflexivity.
  - simpl. left. reflexivity.
Defined.

(** Two numbers without parentheses. *)
Lemma parse_stroke_line_no_paren_witness :
  parse_stroke_line default_interp (u "12 34") = [].
Proof.
  apply (parse_stroke_line_no_paren default_interp (u "12 34")).
  vm_compute. reflexivity.
Defined.

(** The glyphs of the statistics: one record for each range, and two for
    the others. *)
Lemma statistics_partition_witness :
  others mixed_glyphs = 2%Z
  /\ length (hiragana mixed_glyphs) = 1%nat.
Proof.
  destruct (statistics_partition mixed_glyphs) as (Ho & _ & _).
  split; [rewrite Ho|]; vm_compute; reflexivity.
Defined.

(** Three strokes. *)
Lemma normalize_strokes_shape_witness :
  map (@length (Q * Q)) (normalize_strokes three_strokes) = [2; 1; 2]%nat.
Proof.
  rewrite (normalize_strokes_shape three_strokes).
  - vm_compute. reflexivity.
  - vm_compute. discriminate.
Defined.

(** Three strokes, twice as large. *)
Lemma normalize_strokes_magnify_witness :
  strokes_eq (normalize_strokes (magnify 2 three_strokes))
             (normalize_strokes three_strokes).
Proof.
  apply (normalize_strokes_magnify 2 three_strokes).
  vm_compute. reflexivity.
Defined.

(** One point. *)
Lemma normalize_strokes_coincident_witness :
  Forall (Forall (fun p => point_eq p (0, 0)))
         (normalize_strokes single_point).
Proof.
  apply (normalize_strokes_coincident (5, 5) single_point).
  repeat constructor.
Defined.

(** The first example through [main]. *)
Lemma main_keeps_glyphs_and_shape_witness :
  exists characters,
    parse_tdic default_interp one_block = Some (inr characters)
    /\ map char (normalize_all [one_block_record]) = map char characters
    /\ map (fun r => map (@length (Q * Q)) (strokes r))
           (normalize_all [one_block_record])
       = map (fun r => map (@length (Z * Z)) (strokes r)) characters.
Proof.
  apply (main_keeps_glyphs_and_shape default_interp one_block
           (normalize_all [one_block_record])).
  vm_compute. reflexivity.
Defined.

(** The coordinates of the first example after [main]. *)
Lemma main_unit_square_witness :
  Forall (fun v => 0 <= v <= 1)
         (coordinates
            {| char := HIRAGANA_A;
               strokes := normalize_strokes
                            (numbers (strokes one_block_record)) |}).
Proof.
  apply (main_unit_square default_interp one_block
           (normalize_all [one_block_record])).
  - vm_compute. reflexivity.
  - simpl. left. reflexivity.
Defined.

End FurtherWorked.

(* ================================================================== *)
(** ** What comes before the first parenthesis *)

Section LeadingToken.

Variable py : interp.

Lemma rstrip_cons_keep c r : isspace c = false -> rstrip (c :: r) = c :: rstrip r.
Proof. intros Hc. simpl. destruct (rstrip r); [now rewrite Hc|reflexivity]. Qed.

Lemma rstrip_app_keep a b : rstrip b <> [] -> rstrip (a ++ b) = a ++ rstrip b.
Proof.
  intros Hb. induction a as [|c a IH]; simpl; [reflexivity|].
  rewrite IH. destruct (a ++ rstrip b) eqn:E; [|reflexivity].
  apply app_eq_nil in E. destruct E as [_ E]. contradiction.
Qed.

Lemma lstrip_app_keep pre c rest :
  isspace c = false -> lstrip (pre ++ c :: rest) = lstrip pre ++ c :: rest.
Proof.
  intros Hc. induction pre as [|d pre IH]; simpl.
  - now rewrite Hc.
  - destruct (isspace d); [exact IH|reflexivity].
Qed.

Lemma strip_leading pre c rest :
  isspace c = false ->
  strip (pre ++ c :: rest) = lstrip pre ++ c :: rstrip rest.
Proof.
  intros Hc. unfold strip. rewrite (lstrip_app_keep pre c rest Hc).
  rewrite rstrip_app_keep; rewrite (rstrip_cons_keep c rest Hc);
    [reflexivity|discriminate].
Qed.

Lemma find_first c pre t :
  ~ In c pre -> find c (pre ++ c :: t) = Z.of_nat (length pre).
Proof.
  induction pre as [|d pre IH]; intros Hn.
  - simpl. now rewrite N.eqb_refl.
  - change (find c ((d :: pre) ++ c :: t)) with
      (if (d =? c)%N then 0%Z
       else match find c (pre ++ c :: t) with
            | Zneg _ => (-1)%Z
            | k => (k + 1)%Z
            end).
    destruct (N.eqb_spec d c) as [->|Hd]; [exfalso; apply Hn; now left|].
    rewrite IH by (intros H; apply Hn; now right).
    pose proof (Nat2Z.is_nonneg (length pre)) as Hnn.
    change (length (d :: pre)) with (S (length pre)).
    rewrite Nat2Z.inj_succ. destruct (Z.of_nat (length pre)); lia.
Qed.

Lemma slice_after pre c t :
  slice_from (Z.of_nat (length pre) + 1) (pre ++ c :: t) = t.
Proof.
  unfold slice_from.
  destruct (Z.ltb_spec (Z.of_nat (length pre) + 1) 0) as [H|_]; [lia|].
  replace (Z.to_nat (Z.of_nat (length pre) + 1)) with (length pre + 1)%nat
    by lia.
  rewrite skipn_app, skipn_all2 by lia.
  replace (length pre + 1 - length pre)%nat with 1%nat by lia.
  reflexivity.
Qed.

Lemma contains_middle c pre t : contains c (pre ++ c :: t) = true.
Proof.
  unfold contains. apply existsb_exists. exists c.
  split; [apply in_elt|apply N.eqb_refl].
Qed.

Lemma split_when_prefix sep pre rest :
  (forall c, In c pre -> sep c = false) ->
  exists p ps, split_when sep rest = p :: ps
               /\ split_when sep (pre ++ rest) = (pre ++ p) :: ps.
Proof.
  intros Hpre. induction pre as [|d pre IH]; simpl.
  - destruct (split_when_cons sep rest) as (p & ps & E). eauto.
  - destruct IH as (p & ps & E & E').
    { intros c Hc. apply Hpre. now right. }
    rewrite (Hpre d (or_introl eq_refl)), E'. eauto.
Qed.

Lemma coords_loop_cons part parts coords :
  coords_loop py (part :: parts) coords
  = if contains LPAREN (strip part) then
      match parse_coord py (slice_from (find LPAREN (strip part) + 1)
                                       (strip part)) with
      | inr xy => coords_loop py parts (coords ++ [xy])
      | inl ValueError => coords_loop py parts coords
      end
    else coords_loop py parts coords.
Proof. reflexivity. Qed.

(** The fragment that holds the first parenthesis: only what follows the
    parenthesis is read. *)
Lemma coords_loop_leading pre p0 parts coords :
  ~ In LPAREN pre ->
  coords_loop py ((pre ++ LPAREN :: p0) :: parts) coords
  = match parse_coord py (rstrip p0) with
    | inr xy => coords_loop py parts (coords ++ [xy])
    | inl ValueError => coords_loop py parts coords
    end.
Proof.
  intros Hl.
  assert (Hl' : ~ In LPAREN (lstrip pre))
    by (intros H; apply Hl; exact (lstrip_incl _ _ H)).
  rewrite coords_loop_cons.
  rewrite (strip_leading pre LPAREN p0 eq_refl).
  rewrite contains_middle, (find_first LPAREN _ _ Hl'), slice_after.
  reflexivity.
Qed.

(** X18. What stands on a stroke line before the first opening
    parenthesis, the number of points for one, is not used: without a
    parenthesis in it, it can be left out and the points are the same. *)
Theorem parse_stroke_line_leading_token pre rest :
  ~ In LPAREN pre -> ~ In RPAREN pre ->
  parse_stroke_line py (pre ++ LPAREN :: rest)
  = parse_stroke_line py (LPAREN :: rest).
Proof.
  intros Hl Hr. unfold parse_stroke_line, split.
  destruct (split_when_prefix (N.eqb RPAREN) pre (LPAREN :: rest))
    as (p & ps & E & E').
  { intros c Hc. apply N.eqb_neq. intros <-. contradiction. }
  rewrite E, E'.
  assert (Hp : exists p0, p = LPAREN :: p0).
  { simpl in E. destruct (split_when (N.eqb RPAREN) rest) as [|q qs];
      inversion E; eauto. }
  destruct Hp as [p0 ->].
  rewrite (coords_loop_leading pre p0 ps [] Hl).
  pose proof (coords_loop_leading [] p0 ps [] (fun H => H)) as H0.
  simpl app in H0. now rewrite H0.
Qed.

End LeadingToken.

(** A stroke line with its number of points and without it. *)
Lemma parse_stroke_line_leading_token_witness :
  parse_stroke_line default_interp (u "3 (0 0) (10 0) (10 10)")
  = parse_stroke_line default_interp (u "(0 0) (10 0) (10 10)").
Proof.
  apply (parse_stroke_line_leading_token default_interp (u "3 ")
           (u "0 0) (10 0) (10 10)")).
  - vm_compute. intuition discriminate.
  - vm_compute. intuition discriminate.
Defined.

(* ================================================================== *)
(** ** Texts put one after the other *)

Section Concatenation.

Variable py : interp.

Lemma parse_tdic_lines content :
  parse_tdic py content = parse_lines py (lines_of content).
Proof. reflexivity. Qed.

Lemma blank_strip b : nonblank b = false -> strip b = [].
Proof. unfold nonblank. destruct (strip b); [reflexivity|discriminate]. Qed.

Lemma stroke_loop_end lines n i strokes :
  length lines <= i -> stroke_loop py lines n i strokes = (i, strokes).
Proof.
  intros H. destruct n; [reflexivity|]. rewrite stroke_loop_S.
  apply Nat.leb_le in H. now rewrite H.
Qed.

(** [break] is on the last line. *)
Lemma while_body_break_last lines i characters characters' :
  while_body py lines i characters = Break characters' ->
  length lines <= i + 1.
Proof.
  intros H. pose proof (while_body_case py lines i characters) as Hc.
  rewrite H in Hc. clear H.
  inversion Hc as [ | | | Hg Hle | | | N Hg Hlt Hn He Hf]; subst.
  - exact Hle.
  - destruct (stroke_loop py lines (range N) (i + 2) []) as [j strokes].
    destruct (truthy strokes); discriminate.
Qed.

(** *** A blank line and more lines after the lines [la] *)

Section Followed.

Variables (la lb : list str) (b : str).
Hypothesis Hb : nonblank b = false.

Let lines := la ++ b :: lb.

Lemma followed_length : length lines = length la + S (length lb).
Proof. unfold lines. rewrite length_app. reflexivity. Qed.

Lemma followed_nth i : i < length la -> nth i lines [] = nth i la [].
Proof. intros H. unfold lines. now apply app_nth1. Qed.

Lemma followed_nth_blank : nth (length la) lines [] = b.
Proof. unfold lines. now rewrite nth_middle. Qed.

Lemma skip_lines_followed rest : forall i,
  skip_lines (rest ++ b :: lb) i = skip_lines rest i.
Proof.
  induction rest as [|l rest IH]; intros i; simpl.
  - fold (nonblank b). now rewrite Hb.
  - destruct (truthy (strip l)); [apply IH|reflexivity].
Qed.

Lemma followed_skip_lines i :
  i <= length la ->
  skip_lines (skipn i lines) i = skip_lines (skipn i la) i.
Proof.
  intros Hi. unfold lines. rewrite skipn_app.
  replace (i - length la) with 0 by lia. simpl skipn.
  apply skip_lines_followed.
Qed.

(** The stroke loop stops on the blank line as it stops at the end. *)
Lemma followed_stroke_loop n : forall i strokes,
  i <= length la ->
  stroke_loop py lines n i strokes = stroke_loop py la n i strokes.
Proof.
  induction n as [|n IH]; intros i strokes Hi; [reflexivity|].
  rewrite !stroke_loop_S, followed_length.
  assert (Hlt : (length la + S (length lb) <=? i) = false)
    by (apply Nat.leb_gt; lia).
  rewrite Hlt.
  destruct (Nat.leb_spec (length la) i) as [Hle|Hlt'].
  - assert (E : i = length la) by lia. subst i.
    rewrite followed_nth_blank. fold (nonblank b). rewrite Hb. simpl negb.
    cbv iota. rewrite (IH _ _ Hi). apply stroke_loop_end. lia.
  - rewrite (followed_nth i Hlt').
    destruct (negb (truthy (strip (nth i la [])))); apply IH; lia.
Qed.

(** One iteration before the blank line. *)
Lemma followed_body i characters f :
  i < length la ->
  body_case py la i characters f ->
  while_body py lines i characters = followed_flow i f.
Proof.
  intros Hi Hc.
  assert (Hlen : i + 1 < length lines) by (rewrite followed_length; lia).
  destruct Hc as [Hbl|Hv|Hcol|Hg Hle|Hg Hlt Hn|e Hg Hlt Hn He|N Hg Hlt Hn He];
    simpl followed_flow.
  - apply while_body_blank. now rewrite (followed_nth i Hi).
  - rewrite <- (followed_skip_lines (i + 1)) by lia.
    apply while_body_variant. now rewrite (followed_nth i Hi).
  - apply while_body_orphan_colon. now rewrite (followed_nth i Hi).
  - apply while_body_glyph_alone; [now rewrite (followed_nth i Hi)|exact Hlen|].
    replace (i + 1) with (length la) by lia.
    now rewrite followed_nth_blank, (blank_strip b Hb).
  - apply while_body_glyph_alone; [now rewrite (followed_nth i Hi)|exact Hlen|].
    now rewrite (followed_nth (i + 1) Hlt).
  - apply while_body_glyph_raise;
      [now rewrite (followed_nth i Hi)|exact Hlen| |];
      now rewrite (followed_nth (i + 1) Hlt).
  - rewrite (while_body_glyph_block py lines i characters N).
    + rewrite (followed_stroke_loop (range N) (i + 2) []) by lia.
      destruct (stroke_loop py la (range N) (i + 2) []) as [j strokes].
      rewrite (followed_nth i Hi).
      destruct (truthy strokes); reflexivity.
    + now rewrite (followed_nth i Hi).
    + exact Hlen.
    + now rewrite (followed_nth (i + 1) Hlt).
    + now rewrite (followed_nth (i + 1) Hlt).
Qed.

(** The loop before the blank line: it raises as on [la] alone, or comes
    past the blank line with the records of [la]. *)
Lemma followed_loop fuel : forall i characters,
  i <= length la -> length la - i < fuel ->
  while_loop py (S (length lines)) lines i characters
  = match while_loop py fuel la i characters with
    | Some (inr out) =>
        while_loop py (S (length lines)) lines (length la + 1) out
    | other => other
    end.
Proof.
  induction fuel as [|fuel IH]; intros i characters Hi Hf; [lia|].
  rewrite (while_loop_S py fuel la).
  assert (Hblank : while_loop py (S (length lines)) lines (length la)
                     characters
                   = while_loop py (S (length lines)) lines (length la + 1)
                       characters).
  { apply while_loop_next; [rewrite followed_length; lia|].
    apply while_body_blank. now rewrite followed_nth_blank. }
  destruct (Nat.leb_spec (length la) i) as [Hle|Hlt].
  - assert (E : i = length la) by lia. subst i. exact Hblank.
  - pose proof (followed_body i characters _ Hlt
                  (while_body_case py la i characters)) as Hbody.
    assert (Hlen : i < length lines) by (rewrite followed_length; lia).
    destruct (while_body py la i characters) as [j cs|cs|e] eqn:Ea;
      simpl in Hbody.
    + rewrite (while_loop_next py lines i characters j cs Hlen Hbody).
      apply IH.
      * exact (while_body_cursor_bound py la i characters j cs Hlt Ea).
      * pose proof (while_body_progress py la i characters j cs Ea). lia.
    + rewrite (while_loop_next py lines i characters (i + 1) cs Hlen Hbody).
      pose proof (while_body_break_last la i characters cs Ea) as Hlast.
      apply while_body_break in Ea. subst cs.
      replace (i + 1) with (length la) by lia. exact Hblank.
    + rewrite while_loop_S.
      apply Nat.leb_gt in Hlen. now rewrite Hlen, Hbody.
Qed.

End Followed.

(** *** The lines [lb] after other lines and other records *)

Section Shifted.

Variables (pre lb : list str) (before : list (character (Z * Z))).

Lemma shifted_nth i : nth (length pre + i) (pre ++ lb) [] = nth i lb [].
Proof. apply app_nth2_plus. Qed.

Lemma shifted_skipn i : skipn (length pre + i) (pre ++ lb) = skipn i lb.
Proof.
  rewrite skipn_app, skipn_all2 by lia.
  now replace (length pre + i - length pre) with i by lia.
Qed.

Lemma skip_lines_shift rest k : forall i,
  skip_lines rest (k + i) = k + skip_lines rest i.
Proof.
  induction rest as [|l rest IH]; intros i; simpl; [reflexivity|].
  destruct (truthy (strip l)); [|reflexivity].
  rewrite <- IH. f_equal. lia.
Qed.

Lemma shifted_stroke_loop n : forall i strokes,
  stroke_loop py (pre ++ lb) n (length pre + i) strokes
  = (length pre + fst (stroke_loop py lb n i strokes),
     snd (stroke_loop py lb n i strokes)).
Proof.
  induction n as [|n IH]; intros i strokes; [reflexivity|].
  rewrite !stroke_loop_S, length_app, shifted_nth.
  destruct (Nat.leb_spec (length lb) i) as [Hle|Hlt].
  - assert (H : (length pre + length lb <=? length pre + i) = true)
      by (apply Nat.leb_le; lia).
    now rewrite H.
  - assert (H : (length pre + length lb <=? length pre + i) = false)
      by (apply Nat.leb_gt; lia).
    rewrite H.
    destruct (negb (truthy (strip (nth i lb [])))); [apply IH|].
    replace (length pre + i + 1) with (length pre + (i + 1)) by lia.
    apply IH.
Qed.

(** One iteration after the lines [pre]. *)
Lemma shifted_body i characters f :
  body_case py lb i characters f ->
  while_body py (pre ++ lb) (length pre + i) (before ++ characters)
  = shift_flow pre before f.
Proof.
  intros Hc.
  assert (E1 : length pre + i + 1 = length pre + (i + 1)) by lia.
  assert (E2 : length pre + i + 2 = length pre + (i + 2)) by lia.
  destruct Hc as [Hbl|Hv|Hcol|Hg Hle|Hg Hlt Hn|e Hg Hlt Hn He|N Hg Hlt Hn He];
    simpl shift_flow.
  - rewrite <- E1. apply while_body_blank. now rewrite shifted_nth.
  - rewrite <- skip_lines_shift, <- (shifted_skipn (i + 1)), <- E1.
    apply while_body_variant. now rewrite shifted_nth.
  - rewrite <- E1. apply while_body_orphan_colon. now rewrite shifted_nth.
  - apply while_body_glyph_last; [now rewrite shifted_nth|].
    rewrite length_app. lia.
  - rewrite <- E1.
    apply while_body_glyph_alone;
      [now rewrite shifted_nth|rewrite length_app; lia|].
    now rewrite E1, shifted_nth.
  - apply while_body_glyph_raise;
      [now rewrite shifted_nth|rewrite length_app; lia| |];
      now rewrite E1, shifted_nth.
  - rewrite (while_body_glyph_block py (pre ++ lb) (length pre + i)
               (before ++ characters) N).
    + rewrite E2, shifted_stroke_loop, shifted_nth.
      destruct (stroke_loop py lb (range N) (i + 2) []) as [j strokes].
      simpl fst. simpl snd.
      destruct (truthy strokes); simpl; [now rewrite app_assoc|reflexivity].
    + now rewrite shifted_nth.
    + rewrite length_app. lia.
    + now rewrite E1, shifted_nth.
    + now rewrite E1, shifted_nth.
Qed.

(** The loop after the lines [pre]: the outcome on [lb] alone, after the
    records [before]. *)
Lemma shifted_loop fuel : forall i characters,
  while_loop py fuel (pre ++ lb) (length pre + i) (before ++ characters)
  = match while_loop py fuel lb i characters with
    | Some (inr out) => Some (inr (before ++ out))
    | other => other
    end.
Proof.
  induction fuel as [|fuel IH]; intros i characters; [reflexivity|].
  rewrite !while_loop_S, length_app.
  destruct (Nat.leb_spec (length lb) i) as [Hle|Hlt].
  - assert (H : (length pre + length lb <=? length pre + i) = true)
      by (apply Nat.leb_le; lia).
    now rewrite H.
  - assert (H : (length pre + length lb <=? length pre + i) = false)
      by (apply Nat.leb_gt; lia).
    rewrite H.
    rewrite (shifted_body i characters _ (while_body_case py lb i characters)).
    destruct (while_body py lb i characters) as [j cs|cs|e]; simpl;
      [apply IH|reflexivity|reflexivity].
Qed.

End Shifted.

(** A trimmed text that is not empty begins and ends with a code point
    that is no white space. *)
Lemma strip_fixed s :
  strip s = s -> s <> [] ->
  (exists c r, s = c :: r /\ isspace c = false) /\ rstrip s = s.
Proof.
  intros E Hne. unfold strip in E.
  destruct (lstrip_head s) as [E0|(d & r & E0 & Hd)].
  - rewrite E0 in E. simpl in E. congruence.
  - rewrite E0, (rstrip_cons_keep d r Hd) in E.
    assert (Hs : lstrip s = s).
    { rewrite <- E. simpl. now rewrite Hd. }
    split; [exists d, (rstrip r); split; [now rewrite E|exact Hd]|].
    rewrite Hs in E0. rewrite E0 at 1. rewrite (rstrip_cons_keep d r Hd).
    exact E.
Qed.

Lemma lines_of_two_texts a b :
  strip a = a -> strip b = b -> a <> [] -> b <> [] ->
  lines_of (a ++ NL :: NL :: b) = lines_of a ++ [] :: lines_of b.
Proof.
  intros Ea Eb Ha Hb'.
  destruct (strip_fixed a Ea Ha) as [(c & r & Ec & Hc) _].
  destruct (strip_fixed b Eb Hb') as [_ Erb].
  assert (El : lstrip (a ++ NL :: NL :: b) = a ++ NL :: NL :: b).
  { rewrite Ec. simpl. now rewrite Hc. }
  assert (Es : strip (a ++ NL :: NL :: b) = a ++ NL :: NL :: b).
  { unfold strip. rewrite El.
    replace (a ++ NL :: NL :: b) with ((a ++ [NL; NL]) ++ b)
      by (now rewrite <- app_assoc).
    rewrite rstrip_app_keep by (rewrite Erb; exact Hb').
    now rewrite Erb. }
  unfold lines_of. rewrite Es, Ea, Eb. unfold split.
  rewrite (split_when_app (N.eqb NL) a NL (NL :: b) (N.eqb_refl NL)).
  reflexivity.
Qed.

(** The loop on lines, a blank line and more lines. *)
Lemma parse_lines_and_then la b lb :
  nonblank b = false ->
  parse_lines py (la ++ b :: lb)
  = and_then (parse_lines py la) (parse_lines py lb).
Proof.
  intros Hb. unfold parse_lines.
  rewrite (followed_loop la lb b Hb (S (length la)) 0 []) by lia.
  destruct (while_loop py (S (length la)) la 0 []) as [[e|out]|];
    try reflexivity.
  unfold and_then.
  replace (la ++ b :: lb) with ((la ++ [b]) ++ lb)
    by (now rewrite <- app_assoc).
  replace (length la + 1) with (length (la ++ [b]) + 0)
    by (rewrite length_app; simpl; lia).
  rewrite <- (app_nil_r out) at 1.
  rewrite (shifted_loop (la ++ [b]) lb out _ 0 []).
  rewrite (while_loop_fuel py lb (S (length ((la ++ [b]) ++ lb)))
             (S (length lb)) 0 []) by (rewrite ?length_app; lia).
  destruct (while_loop py (S (length lb)) lb 0 []) as [[e|out']|];
    reflexivity.
Qed.

End Concatenation.

Section ConcatenationProperties.

Variable py : interp.

(** X19. Blocks on the two sides of a blank line are parsed apart: on
    lines [la], a blank line and lines [lb], the loop of the parser raises
    if it raises on [la] or else on [lb], and otherwise returns the records
    of [la] followed by the records of [lb]. *)
Theorem parse_lines_blank_line la b lb :
  nonblank b = false ->
  parse_lines py (la ++ b :: lb)
  = and_then (parse_lines py la) (parse_lines py lb).
Proof. exact (parse_lines_and_then py la b lb). Qed.

(** X20. For two trimmed texts that are not empty, the text made of the
    first, an empty line and the second parses to the records of the first
    followed by the records of the second, or raises as the first of them
    that raises. *)
Theorem parse_tdic_two_texts a b :
  strip a = a -> strip b = b -> a <> [] -> b <> [] ->
  parse_tdic py (a ++ NL :: NL :: b)
  = and_then (parse_tdic py a) (parse_tdic py b).
Proof.
  intros Ea Eb Ha Hb.
  rewrite !parse_tdic_lines, (lines_of_two_texts a b Ea Eb Ha Hb).
  now apply parse_lines_and_then.
Qed.

End ConcatenationProperties.

(** A block that declares more strokes than it has, a line of one space,
    and a second block. *)
Lemma parse_lines_blank_line_witness :
  parse_lines default_interp (first_lines ++ u " " :: second_lines)
  = Some (inr [{| char := HIRAGANA_A; strokes := [[(0, 0); (4, 4)]]%Z |};
               after_variant_record]).
Proof.
  rewrite (parse_lines_blank_line default_interp first_lines (u " ")
             second_lines).
  - vm_compute. reflexivity.
  - vm_compute. reflexivity.
Defined.

(** The same two blocks as texts. *)
Lemma parse_tdic_two_texts_witness :
  parse_tdic default_interp
    (join NL first_lines ++ NL :: NL :: join NL second_lines)
  = Some (inr [{| char := HIRAGANA_A; strokes := [[(0, 0); (4, 4)]]%Z |};
               after_variant_record]).
Proof.
  rewrite (parse_tdic_two_texts default_interp (join NL first_lines)
             (join NL second_lines)).
  - vm_compute. reflexivity.
  - vm_compute. reflexivity.
  - vm_compute. reflexivity.
  - vm_compute. discriminate.
  - vm_compute. discriminate.
Defined.

Section AspectRatio.

Local Open Scope Q_scope.

(** X21. The normaliser keeps the aspect ratio: with a point among the
    strokes, every point goes through one and the same map, and between any
    two points the difference of the abscissas and the difference of the
    ordinates are divided by the same positive number. *)
Theorem normalize_strokes_aspect_ratio strokes :
  xs_of strokes <> [] ->
  exists scale f,
    0 < scale
    /\ normalize_strokes strokes = map (map f) strokes
    /\ forall p q : Q * Q,
         (fst (f p) - fst (f q)) * scale == fst p - fst q
         /\ (snd (f p) - snd (f q)) * scale == snd p - snd q.
Proof.
  intros Hx.
  destruct (scale_of_bounds _ _ (span_nonneg (xs_of strokes))
              (span_nonneg (ys_of strokes))) as (Hs & _).
  exists (scale_of (span (xs_of strokes)) (span (ys_of strokes))).
  exists (norm_point (min_of (xs_of strokes)) (min_of (ys_of strokes))
            (scale_of (span (xs_of strokes)) (span (ys_of strokes)))).
  split; [exact Hs|]. split; [exact (normalize_strokes_points strokes Hx)|].
  intros [x y] [x' y']. unfold norm_point. simpl. split; field; lra.
Qed.

(** Three strokes: the scale is the height of their box. *)
Lemma normalize_strokes_aspect_ratio_witness :
  exists scale f,
    0 < scale
    /\ normalize_strokes three_strokes = map (map f) three_strokes
    /\ forall p q : Q * Q,
         (fst (f p) - fst (f q)) * scale == fst p - fst q
         /\ (snd (f p) - snd (f q)) * scale == snd p - snd q.
Proof.
  apply (normalize_strokes_aspect_ratio three_strokes).
  vm_compute. discriminate.
Defined.

End AspectRatio.
